(** * jquery.class: a shallow embedding of [src/jquery.class.js]

    The development models the three cooperating pieces of the library
    (the hookable wrapper, the [_super] wrapper closure built inside
    [_Class.extend], and [_Class.extend] itself) together with the exported
    base [Class], over an explicit JavaScript-like object heap.

    Conventions of the model:
    - a heap is a list of objects addressed by index; allocation appends;
    - an object has a prototype link, an array flag and an ordered list of
      own data properties (for-in enumeration follows that order);
    - every property is a writable data property (no accessors, no frozen
      objects), and the members of [Object.prototype] are not part of the
      heap, so an object literal has no prototype link;
    - a property name is a string; numbers are integers. *)

From Stdlib Require Import ZArith String List Lia Bool Ascii.
From stdpp Require Import base option list pretty.
Import ListNotations.
Open Scope string_scope.

(** ** Values *)

Abbreviation loc := nat.

(** Library functions of the exported base class (the members given to
    [_Class.extend] at the bottom of the source file). *)
Inductive libfn : Type :=
| LInit | LSetOptions | LSet | LGet | LGetElement | LGetRawElement | LUid.

Inductive value : Type :=
| VUndef
| VNull
| VBool (b : bool)
| VNum (n : Z)
| VStr (s : string)
| VObj (l : loc)
| VFun (f : func)
| VErr (e : jserror)
with func : Type :=
(* a function written by the client of the library *)
| FUser (id : nat)
(* a member function of the exported base class *)
| FLib (m : libfn)
(* [hookableFunction], the closure returned by [hookable(fn)]: [h] names its
   private [hooks] record, [ifn] is the wrapped value *)
| FHookable (h : nat) (ifn : value)
(* the closure [function() { var tmp = this._super; ... }] built by extend:
   it captures [_super] (the base prototype), [name] and [fn] *)
| FSuperWrap (sup : value) (name : string) (fn : value)
(* [this._Class = function(){}] with its prototype object *)
| FRootClass (proto : loc)
(* the dummy constructor [function _Class()] returned by extend, with its
   [prototype] and the [hooks] record of its [extend] member *)
| FClass (proto : loc) (h : nat)
(* the function assigned to [_Class.extend] *)
| FExtend
(* the [addHook] member of the hookable function whose record is [h] *)
| FAddHook (h : nat)
with jserror : Type :=
(* raised by the engine: calling a non-callable, reading a member of
   undefined or null *)
| TypeError (msg : string)
(* [new Error("Invalid hook type")] with its [expected] and [got] fields *)
| HookError (message : string) (expected : list string) (got : value).

Definition typeof (v : value) : string :=
  match v with
  | VUndef => "undefined"
  | VNull => "object"
  | VBool _ => "boolean"
  | VNum _ => "number"
  | VStr _ => "string"
  | VObj _ => "object"
  | VFun _ => "function"
  | VErr _ => "object"
  end.

(** [!!v] *)
Definition truthy (v : value) : bool :=
  match v with
  | VUndef | VNull => false
  | VBool b => b
  | VNum n => negb (Z.eqb n 0)
  | VStr s => negb (String.eqb s "")
  | VObj _ | VFun _ | VErr _ => true
  end.

(** ** Objects and the heap *)

Abbreviation props := (list (string * value)).

Record obj : Type := Obj {
  o_proto : option loc;
  o_array : bool;
  o_props : props
}.

Fixpoint alist_get (k : string) (m : props) : option value :=
  match m with
  | [] => None
  | (k', v) :: m' => if String.eqb k k' then Some v else alist_get k m'
  end.

(** Assignment keeps the position of an existing key and appends a new one. *)
Fixpoint alist_set (k : string) (v : value) (m : props) : props :=
  match m with
  | [] => [(k, v)]
  | (k', v') :: m' =>
      if String.eqb k k' then (k, v) :: m' else (k', v') :: alist_set k v m'
  end.

Abbreviation heap := (list obj).

Definition own_prop (h : heap) (l : loc) (k : string) : option value :=
  match h !! l with
  | Some o => alist_get k (o_props o)
  | None => None
  end.

(** Lookup along the prototype chain. *)
Fixpoint chain_get (fuel : nat) (h : heap) (l : loc) (k : string)
  : option value :=
  match fuel with
  | O => None
  | S n =>
      match h !! l with
      | None => None
      | Some o =>
          match alist_get k (o_props o) with
          | Some v => Some v
          | None =>
              match o_proto o with
              | Some p => chain_get n h p k
              | None => None
              end
          end
      end
  end.

(** [o[k]] for an object [o]. *)
Definition get_prop (h : heap) (l : loc) (k : string) : value :=
  default VUndef (chain_get (S (length h)) h l k).

(** [o[k] = v] for an object [o]: always an own property. *)
Definition set_prop (h : heap) (l : loc) (k : string) (v : value) : heap :=
  match h !! l with
  | Some o => <[ l := Obj (o_proto o) (o_array o) (alist_set k v (o_props o)) ]> h
  | None => h
  end.

Definition alloc (h : heap) (o : obj) : loc * heap := (length h, (h ++ [o])%list).

(** The private [hooks = { before : [], after : [] }] record of a hookable
    function. *)
Record hookreg : Type := HookReg {
  before : list value;
  after : list value
}.

Record state : Type := State {
  st_heap : heap;
  st_hooks : list hookreg;
  (* the variable [initializing] shared by every class *)
  st_initializing : bool
}.

Definition with_heap (s : state) (h : heap) : state :=
  State h (st_hooks s) (st_initializing s).

Definition with_hooks (s : state) (hs : list hookreg) : state :=
  State (st_heap s) hs (st_initializing s).

Definition with_initializing (s : state) (b : bool) : state :=
  State (st_heap s) (st_hooks s) b.

(** ** Source text of functions and the [fnTest] probe *)

(** [\w] of JavaScript regular expressions. *)
Definition is_word_char (c : ascii) : bool :=
  let n := nat_of_ascii c in
  (((48 <=? n) && (n <=? 57)) || ((65 <=? n) && (n <=? 90))
   || ((97 <=? n) && (n <=? 122)) || (n =? 95))%nat.

Fixpoint string_drop (n : nat) (s : string) : string :=
  match n, s with
  | O, _ => s
  | S n', String _ s' => string_drop n' s'
  | S _, EmptyString => EmptyString
  end.

Definition starts_with_word (s : string) : bool :=
  match s with
  | String c _ => is_word_char c
  | EmptyString => false
  end.

(** [/xyz/.test(s)]: [s] has the substring [xyz]. *)
Fixpoint test_xyz (s : string) : bool :=
  match s with
  | EmptyString => false
  | String _ s' => String.prefix "xyz" s || test_xyz s'
  end.

(** [/\b_super\b/.test(s)]: an occurrence of [_super] that neither follows
    nor precedes a word character. *)
Fixpoint test_super_from (prev_word : bool) (s : string) : bool :=
  match s with
  | EmptyString => false
  | String c s' =>
      (negb prev_word && String.prefix "_super" s
       && negb (starts_with_word (string_drop 6 s)))
      || test_super_from (is_word_char c) s'
  end.

Definition test_super (s : string) : bool := test_super_from false s.

(** The text an engine gives for [function(){xyz;}] when it decompiles
    functions, which every engine following the language standard does. *)
Definition probe_text : string := "function(){xyz;}".

(** [fnTest = /xyz/.test(function(){xyz;}) ? /\b_super\b/ : /.*/], applied
    to a source text. *)
Definition fnTest (src : string) : bool :=
  if test_xyz probe_text then test_super src else true.

(** ** Client programs

    The body of a function written by a client of the library is a tree of
    the operations it performs on the object heap; the continuation of an
    operation receives its result, so a body may branch on what it reads. *)
Inductive prog : Type :=
| Ret (v : value)
| Throw (v : value)
(* [o[k]] *)
| GetP (o : value) (k : string) (cont : value -> prog)
(* [o[k] = v] *)
| SetP (o : value) (k : string) (v : value) (cont : prog)
(* [f.apply(this, args)] *)
| Call (f : value) (this : value) (args : list value) (cont : value -> prog)
(* [new c(args...)] *)
| New (c : value) (args : list value) (cont : value -> prog)
(* an object literal with the given members *)
| NewObj (members : props) (cont : value -> prog)
(* a call to the element wrapper, an external collaborator *)
| Ext (name : string) (args : list value) (cont : value -> prog)
(* [jQuery.extend(true, target, srcs...)] *)
| DeepExtend (target : value) (srcs : list value) (cont : value -> prog).

Definition arg (i : nat) (args : list value) : value := nth i args VUndef.

(** What the environment of the library supplies: the client's functions
    (their source text, as [toString] gives it, and their bodies) and the
    external collaborators. *)
Record env : Type := Env {
  fn_text : nat -> string;
  fn_body : nat -> value -> list value -> prog;
  external : string -> list value -> value
}.

(** Source text of the functions the library itself creates, as far as the
    [fnTest] probe can tell them apart. *)
Definition hookable_text : string :=
  "function hookableFunction() { var args = [].slice.call(arguments, 0), i = 0, fn; for (i = 0; !!hooks.before[i]; i += 1) { fn = hooks.before[i]; fn.apply(this, args); } var r = ifn.apply(this, arguments); for (i = 0; !!hooks.after[i]; i++) { fn = hooks.after[i]; fn.apply(this, args); } return r; }".

Definition superwrap_text : string :=
  "function() { var tmp = this._super; this._super = _super[name]; var ret = fn.apply(this, arguments); this._super = tmp; return ret; }".

Definition class_text : string :=
  "function _Class() { if ( !initializing && this.init ) this.init.apply(this, arguments); }".

Definition extend_text : string :=
  "function(prop) { var _super = this.prototype; initializing = true; var prototype = new this(); initializing = false; for (var name in prop) { } }".

Definition addhook_text : string :=
  "function (type, fn) { if (hooks[type] instanceof Array) { hooks[type].push(fn); } else { throw (function () { var e = new Error('Invalid hook type'); e.expected = Object.keys(hooks); e.got = type; return e; }()); } }".

Definition lib_text (m : libfn) : string :=
  match m with
  | LInit => "function(element, options) { this.$element = jQuery(element); if (options) this.setOptions(options); }"
  | LSetOptions => "function(options) { jQuery.extend(true, this.options, {}, this.defaults, options); return this; }"
  | LSet => "function(name, value) { this.options[name] = value; return this; }"
  | LGet => "function(name, def) { return typeof this.options[name] != 'undefined' ? this.options[name] : def; }"
  | LGetElement => "function() { return this.$element; }"
  | LGetRawElement => "function() { return this.element().context; }"
  | LUid => "function() { return _uid(this.getElement()).replace(/[/,'').replace(/]/,'').replace(/:/,''); }"
  end.

Definition func_text (E : env) (f : func) : string :=
  match f with
  | FUser id => fn_text E id
  | FLib m => lib_text m
  | FHookable _ _ => hookable_text
  | FSuperWrap _ _ _ => superwrap_text
  | FRootClass _ => "function(){}"
  | FClass _ _ => class_text
  | FExtend => extend_text
  | FAddHook _ => addhook_text
  end.

(** ** Reading and writing members of a value *)

(** Members of the function objects the library creates.  The [bind] member
    of a hookable function is outside the model. *)
Definition fun_prop (f : func) (k : string) : value :=
  match f with
  | FHookable h _ =>
      if String.eqb k "addHook" then VFun (FAddHook h) else VUndef
  | FRootClass p =>
      if String.eqb k "prototype" then VObj p
      else if String.eqb k "extend" then VFun FExtend
      else VUndef
  | FClass p h =>
      if String.eqb k "prototype" then VObj p
      else if String.eqb k "constructor" then VFun (FClass p h)
      else if String.eqb k "extend" then VFun (FHookable h (VFun FExtend))
      else VUndef
  | _ => VUndef
  end.

Definition err_prop (e : jserror) (k : string) : value :=
  match e with
  | TypeError msg => if String.eqb k "message" then VStr msg else VUndef
  | HookError msg _ got =>
      if String.eqb k "message" then VStr msg
      else if String.eqb k "got" then got
      else VUndef
  end.

(** [v[k]]: reading a member of undefined or null is a TypeError. *)
Definition member (h : heap) (v : value) (k : string) : value + jserror :=
  match v with
  | VUndef | VNull => inr (TypeError "cannot read a member of undefined or null")
  | VObj l => inl (get_prop h l k)
  | VFun f => inl (fun_prop f k)
  | VErr e => inl (err_prop e k)
  | _ => inl VUndef
  end.

(** [v[k] = x]: only objects of the heap keep what is assigned. *)
Definition assign (h : heap) (v : value) (k : string) (x : value)
  : heap + jserror :=
  match v with
  | VUndef | VNull => inr (TypeError "cannot set a member of undefined or null")
  | VObj l => inl (set_prop h l k x)
  | _ => inl h
  end.

(** Property keys of a value used as a member name. *)
Definition to_key (v : value) : string :=
  match v with
  | VStr s => s
  | VUndef => "undefined"
  | VNull => "null"
  | VBool true => "true"
  | VBool false => "false"
  | VNum n => pretty.pretty n
  | _ => "[object Object]"
  end.

(** ** for-in enumeration *)

Fixpoint chain_keys (fuel : nat) (h : heap) (l : loc) : list string :=
  match fuel with
  | O => []
  | S n =>
      match h !! l with
      | None => []
      | Some o =>
          (map fst (o_props o)
           ++ match o_proto o with
              | Some p => chain_keys n h p
              | None => []
              end)%list
      end
  end.

Fixpoint dedup_keys (seen : list string) (ks : list string) : list string :=
  match ks with
  | [] => []
  | k :: r =>
      if existsb (String.eqb k) seen then dedup_keys seen r
      else k :: dedup_keys (k :: seen) r
  end.

(** The names visited by [for (var name in o)]: own members first, in
    insertion order, then the members of the prototype chain that are not
    shadowed. *)
Definition forin_keys (h : heap) (v : value) : list string :=
  match v with
  | VObj l => dedup_keys [] (chain_keys (S (length h)) h l)
  | _ => []
  end.

(** ** The deep merge of jQuery

    [jQuery.extend] belongs to the jQuery library, which the module
    receives from its loader, so its code is not among the sources.  The
    specification asks of it to "merge B into A recursively, B wins on
    conflicts"; the model follows jQuery's documented behaviour for the
    call [jQuery.extend(true, A, B, ...)]: the members of each source are
    merged into the target object itself, later sources win, plain objects
    and arrays are merged recursively, undefined members are skipped, and
    the target is returned. *)

Definition is_array (h : heap) (l : loc) : bool :=
  match h !! l with
  | Some o => o_array o
  | None => false
  end.

Definition is_plain (h : heap) (l : loc) : bool :=
  match h !! l with
  | Some o => negb (o_array o) && match o_proto o with None => true | Some _ => false end
  | None => false
  end.

(** The object the members of [copy] are merged into: the member the
    target already has when it is of the same kind, a fresh one otherwise. *)
Definition merge_clone (h : heap) (src : value) (copy : loc) : loc * heap :=
  let arr := is_array h copy in
  match src with
  | VObj sl =>
      if (if arr then is_array h sl else is_plain h sl) then (sl, h)
      else alloc h (Obj None arr [])
  | _ => alloc h (Obj None arr [])
  end.

(** Modelled from the spec: the deep-merge utility is absent from the
    sources.  One pass over the names of the source [s], merging each
    member into the target [t]; [rec] merges a nested object. *)
Fixpoint jq_merge_keys (rec : heap -> loc -> loc -> option heap)
    (t s : loc) (ks : list string) (h : heap) {struct ks} : option heap :=
  match ks with
  | [] => Some h
  | name :: ks' =>
      match get_prop h s name with
      | VObj c =>
          if Nat.eqb c t then jq_merge_keys rec t s ks' h
          else if is_plain h c || is_array h c then
            let '(clone, h1) := merge_clone h (get_prop h t name) c in
            match rec h1 clone c with
            | None => None
            | Some h2 =>
                jq_merge_keys rec t s ks' (set_prop h2 t name (VObj clone))
            end
          else jq_merge_keys rec t s ks' (set_prop h t name (VObj c))
      | VUndef => jq_merge_keys rec t s ks' h
      | copy => jq_merge_keys rec t s ks' (set_prop h t name copy)
      end
  end.

(** Modelled from the spec: the deep-merge utility is absent from the
    sources.  "Merge B into A recursively, B wins on conflicts", for the
    target [t] and the source [s]; [fuel] bounds the nesting. *)
Fixpoint jq_merge (fuel : nat) (h : heap) (t s : loc) {struct fuel}
  : option heap :=
  match fuel with
  | O => None
  | S n => jq_merge_keys (jq_merge n) t s (forin_keys h (VObj s)) h
  end.

Fixpoint jq_merge_all (fuel : nat) (h : heap) (t : loc) (srcs : list value)
  : option heap :=
  match srcs with
  | [] => Some h
  | VObj s :: rest =>
      match jq_merge fuel h t s with
      | None => None
      | Some h' => jq_merge_all fuel h' t rest
      end
  | _ :: rest => jq_merge_all fuel h t rest
  end.

(** Modelled from the spec: the deep-merge utility is absent from the
    sources.  [jQuery.extend(true, target, src, srcs...)]: a target that is
    not an object is replaced by a fresh one ([target || {}]), except a
    function, whose members the model does not keep; sources that are not
    objects are skipped. *)
Definition jQuery_extend (fuel : nat) (h : heap) (target : value)
    (srcs : list value) : option (value * heap) :=
  match target with
  | VObj t =>
      match jq_merge_all fuel h t srcs with
      | Some h' => Some (VObj t, h')
      | None => None
      end
  | VFun f => Some (VFun f, h)
  | VErr e => Some (VErr e, h)
  | _ =>
      let '(t, h0) := alloc h (Obj None false []) in
      match jq_merge_all fuel h0 t srcs with
      | Some h' => Some (VObj t, h')
      | None => None
      end
  end.

(** ** Bodies of the members of the exported base class *)

Definition lib_body (m : libfn) (this : value) (args : list value) : prog :=
  match m with
  | LInit =>
      (* this.$element = jQuery(element);
         if (options) this.setOptions(options); *)
      Ext "jQuery" [arg 0 args] (fun el =>
      SetP this "$element" el
        (if truthy (arg 1 args)
         then GetP this "setOptions" (fun f =>
              Call f this [arg 1 args] (fun _ => Ret VUndef))
         else Ret VUndef))
  | LSetOptions =>
      (* jQuery.extend(true, this.options, {}, this.defaults, options);
         return this; *)
      GetP this "options" (fun o =>
      NewObj [] (fun e =>
      GetP this "defaults" (fun d =>
      DeepExtend o [e; d; arg 0 args] (fun _ => Ret this))))
  | LSet =>
      (* this.options[name] = value; return this; *)
      GetP this "options" (fun o =>
      SetP o (to_key (arg 0 args)) (arg 1 args) (Ret this))
  | LGet =>
      (* return typeof this.options[name] != 'undefined'
                ? this.options[name] : def; *)
      GetP this "options" (fun o =>
      GetP o (to_key (arg 0 args)) (fun v =>
      if negb (String.eqb (typeof v) "undefined")
      then GetP this "options" (fun o' =>
           GetP o' (to_key (arg 0 args)) (fun v' => Ret v'))
      else Ret (arg 1 args)))
  | LGetElement =>
      (* return this.$element; *)
      GetP this "$element" (fun el => Ret el)
  | LGetRawElement =>
      (* return this.element().context; *)
      GetP this "element" (fun f =>
      Call f this [] (fun r =>
      GetP r "context" (fun c => Ret c)))
  | LUid =>
      (* return _uid(this.getElement()).replace(...)...; the identifier is
         derived from the element wrapper by the external collaborator *)
      GetP this "getElement" (fun f =>
      Call f this [] (fun el =>
      Ext "uid" [el] (fun u => Ret u)))
  end.

(** The override map handed to [_Class.extend] at the bottom of the file. *)
Definition class_members (defaults options : value) : props :=
  [ ("$element", VNull);
    ("defaults", defaults); ("options", options);
    ("init", VFun (FLib LInit));
    ("setOptions", VFun (FLib LSetOptions));
    ("set", VFun (FLib LSet));
    ("get", VFun (FLib LGet));
    ("getElement", VFun (FLib LGetElement));
    ("getRawElement", VFun (FLib LGetRawElement));
    ("uid", VFun (FLib LUid)) ].

(** ** Outcomes *)

Inductive outcome : Type :=
| Normal (v : value)
| Thrown (e : value)
(* the bound on the depth of calls or on loop iterations was reached *)
| Diverge.

Definition result : Type := outcome * state.

Definition type_error (msg : string) (s : state) : result :=
  (Thrown (VErr (TypeError msg)), s).

Section Interp.

Context (E : env).

(** What the interpreter of calls at the next smaller depth provides. *)
Context (fuel : nat).
Context (call : value -> value -> list value -> state -> result).

(** The dummy constructor [function _Class()] as a function body. *)
Definition _Class (this : value) (args : list value) (s : state)
  : result :=
  if negb (st_initializing s) then
    match member (st_heap s) this "init" with
    | inr e => (Thrown (VErr e), s)
    | inl init =>
        if truthy init then
          match call init this args s with
          | (Normal _, s') => (Normal VUndef, s')
          | r => r
          end
        else (Normal VUndef, s)
    end
  else (Normal VUndef, s).

(** [new c(args...)]: only the classes of the library are constructed. *)
Definition construct (c : value) (args : list value) (s : state) : result :=
  match c with
  | VFun (FClass p _) =>
      let '(l, h) := alloc (st_heap s) (Obj (Some p) false []) in
      match _Class (VObj l) args (with_heap s h) with
      | (Normal _, s') => (Normal (VObj l), s')
      | r => r
      end
  | VFun (FRootClass p) =>
      let '(l, h) := alloc (st_heap s) (Obj (Some p) false []) in
      (Normal (VObj l), with_heap s h)
  | _ => type_error "not a constructor" s
  end.

(** Execution of a client program. *)
Fixpoint exec (p : prog) (s : state) {struct p} : result :=
  match p with
  | Ret v => (Normal v, s)
  | Throw v => (Thrown v, s)
  | GetP o k cont =>
      match member (st_heap s) o k with
      | inl v => exec (cont v) s
      | inr e => (Thrown (VErr e), s)
      end
  | SetP o k v cont =>
      match assign (st_heap s) o k v with
      | inl h => exec cont (with_heap s h)
      | inr e => (Thrown (VErr e), s)
      end
  | Call f this args cont =>
      match call f this args s with
      | (Normal v, s') => exec (cont v) s'
      | r => r
      end
  | New c args cont =>
      match construct c args s with
      | (Normal v, s') => exec (cont v) s'
      | r => r
      end
  | NewObj members cont =>
      let '(l, h) := alloc (st_heap s) (Obj None false members) in
      exec (cont (VObj l)) (with_heap s h)
  | Ext name args cont => exec (cont (external E name args)) s
  | DeepExtend t srcs cont =>
      match jQuery_extend fuel (st_heap s) t srcs with
      | Some (v, h) => exec (cont v) (with_heap s h)
      | None => (Diverge, s)
      end
  end.

(** *** The hookable wrapper *)

Definition hooks_of (s : state) (h : nat) : hookreg :=
  default (HookReg [] []) (st_hooks s !! h).

(** [for (i = 0; !!hooks.before[i]; i += 1) { fn = hooks.before[i];
    fn.apply(this, args); }] and its twin over [hooks.after]; [sel] picks
    the sequence, [n] bounds the iterations. *)
Fixpoint hooks_loop (sel : hookreg -> list value) (h : nat)
    (this : value) (args : list value) (n : nat) (i : nat) (s : state)
  : result :=
  match n with
  | O => (Diverge, s)
  | S n' =>
      let fn := nth i (sel (hooks_of s h)) VUndef in
      if truthy fn then
        match call fn this args s with
        | (Normal _, s') => hooks_loop sel h this args n' (S i) s'
        | r => r
        end
      else (Normal VUndef, s)
  end.

(** [hookableFunction] *)
Definition hookableFunction (h : nat) (ifn : value) (this : value)
    (args : list value) (s : state) : result :=
  match hooks_loop before h this args (S fuel) 0 s with
  | (Normal _, s1) =>
      match call ifn this args s1 with
      | (Normal r, s2) =>
          match hooks_loop after h this args (S fuel) 0 s2 with
          | (Normal _, s3) => (Normal r, s3)
          | x => x
          end
      | x => x
      end
  | x => x
  end.

(** [hookable(fn)]: a fresh [hooks] record and the closure over it. *)
Definition hookable (fn : value) (s : state) : value * state :=
  (VFun (FHookable (length (st_hooks s)) fn),
   with_hooks s (st_hooks s ++ [HookReg [] []])%list).

(** [hookableFunction.addHook] *)
Definition addHook (h : nat) (args : list value) (s : state) : result :=
  let type := arg 0 args in
  let fn := arg 1 args in
  let r := hooks_of s h in
  if String.eqb (to_key type) "before" then
    (Normal VUndef,
     with_hooks s (<[ h := HookReg (before r ++ [fn]) (after r) ]> (st_hooks s)))
  else if String.eqb (to_key type) "after" then
    (Normal VUndef,
     with_hooks s (<[ h := HookReg (before r) (after r ++ [fn]) ]> (st_hooks s)))
  else
    (Thrown (VErr (HookError "Invalid hook type" ["before"; "after"] type)), s).

(** *** The closure that gives an override its [_super] *)

Definition superwrap_call (sup : value) (name : string) (fn : value)
    (this : value) (args : list value) (s : state) : result :=
  (* var tmp = this._super; *)
  match member (st_heap s) this "_super" with
  | inr e => (Thrown (VErr e), s)
  | inl tmp =>
      (* this._super = _super[name]; *)
      match member (st_heap s) sup name with
      | inr e => (Thrown (VErr e), s)
      | inl parent =>
          match assign (st_heap s) this "_super" parent with
          | inr e => (Thrown (VErr e), s)
          | inl h1 =>
              (* var ret = fn.apply(this, arguments); *)
              match call fn this args (with_heap s h1) with
              | (Normal ret, s2) =>
                  (* this._super = tmp; return ret; *)
                  match assign (st_heap s2) this "_super" tmp with
                  | inr e => (Thrown (VErr e), s2)
                  | inl h3 => (Normal ret, with_heap s2 h3)
                  end
              | x => x
              end
          end
      end
  end.

(** *** [_Class.extend] *)

(** The value assigned to [prototype[name]] for one name of [for (var name
    in prop)]. *)
Definition extend_member (sup prop : value) (name : string) (s : state)
  : result :=
  match member (st_heap s) prop name with
  | inr e => (Thrown (VErr e), s)
  | inl pv =>
      if String.eqb (typeof pv) "function" then
        match member (st_heap s) sup name with
        | inr e => (Thrown (VErr e), s)
        | inl bv =>
            if String.eqb (typeof bv) "function"
               && fnTest (match pv with VFun f => func_text E f | _ => "" end)
            then (Normal (VFun (FSuperWrap sup name pv)), s)
            else let '(f, s') := hookable pv s in (Normal f, s')
        end
      else if String.eqb (typeof pv) "object" then
        match member (st_heap s) sup name with
        | inr e => (Thrown (VErr e), s)
        | inl bv =>
            if String.eqb (typeof bv) "object" then
              match jQuery_extend fuel (st_heap s) bv [pv] with
              | Some (v, h) => (Normal v, with_heap s h)
              | None => (Diverge, s)
              end
            else (Normal pv, s)
        end
      else (Normal pv, s)
  end.

(** [for (var name in prop) { prototype[name] = ... }] *)
Fixpoint extend_loop (sup prop proto : value) (names : list string)
    (s : state) : result :=
  match names with
  | [] => (Normal VUndef, s)
  | name :: rest =>
      match extend_member sup prop name s with
      | (Normal v, s1) =>
          match assign (st_heap s1) proto name v with
          | inl h => extend_loop sup prop proto rest (with_heap s1 h)
          | inr e => (Thrown (VErr e), s1)
          end
      | r => r
      end
  end.

Definition extend (this : value) (args : list value) (s : state)
  : result :=
  let prop := arg 0 args in
  (* var _super = this.prototype; *)
  match member (st_heap s) this "prototype" with
  | inr e => (Thrown (VErr e), s)
  | inl sup =>
      (* initializing = true; var prototype = new this();
         initializing = false; *)
      match construct this [] (with_initializing s true) with
      | (Normal proto, s2) =>
          let s3 := with_initializing s2 false in
          match extend_loop sup prop proto (forin_keys (st_heap s3) prop) s3 with
          | (Normal _, s4) =>
              match proto with
              | VObj pl =>
                  (* _Class.prototype = prototype;
                     _Class.extend = hookable(arguments.callee); *)
                  (Normal (VFun (FClass pl (length (st_hooks s4)))),
                   snd (hookable (VFun FExtend) s4))
              | _ => type_error "not a constructor" s4
              end
          | r => r
          end
      | r => r
      end
  end.

End Interp.

(** ** Calls *)

Fixpoint apply (E : env) (fuel : nat) (f this : value) (args : list value)
    (s : state) {struct fuel} : result :=
  match fuel with
  | O => (Diverge, s)
  | S n =>
      let call := apply E n in
      match f with
      | VFun (FUser id) => exec E n call (fn_body E id this args) s
      | VFun (FLib m) => exec E n call (lib_body m this args) s
      | VFun (FHookable h ifn) => hookableFunction n call h ifn this args s
      | VFun (FSuperWrap sup name fn) => superwrap_call call sup name fn this args s
      | VFun (FRootClass _) => (Normal VUndef, s)
      | VFun (FClass _ _) => _Class call this args s
      | VFun FExtend => extend E n call this args s
      | VFun (FAddHook h) => addHook h args s
      | _ => type_error "not a function" s
      end
  end.

(** [new c(args...)] and the run of a program, from the outside. *)
Definition new (E : env) (fuel : nat) (c : value) (args : list value)
    (s : state) : result :=
  construct (apply E fuel) c args s.

Definition run (E : env) (fuel : nat) (p : prog) (s : state) : result :=
  exec E fuel (apply E fuel) p s.

(** ** Loading the module *)

(** The state in which [this._Class = function(){}] has been evaluated:
    its prototype object is at address 0. *)
Definition initial_state : state := State [Obj None false []] [] false.

Definition root_class : value := VFun (FRootClass 0).

(** [c.extend({ members })] *)
Definition extend_with (c : value) (members : props) (cont : value -> prog)
  : prog :=
  NewObj members (fun prop =>
  GetP c "extend" (fun ext =>
  Call ext c [prop] cont)).

(** [var Class = _Class.extend({ ... })] *)
Definition module_prog : prog :=
  NewObj [] (fun d =>
  NewObj [] (fun o =>
  extend_with root_class (class_members d o) (fun c => Ret c))).

Definition load (E : env) : result := run E 4 module_prog initial_state.

(** ** Auxiliary notions used by the statements *)

(** A string with a lower-case letter (or a later character). *)
Fixpoint has_lower (s : string) : bool :=
  match s with
  | EmptyString => false
  | String c s' => (97 <=? nat_of_ascii c)%nat || has_lower s'
  end.

(** A value that is not an object: its property key is the one the
    language defines. *)
Definition primitive (v : value) : bool :=
  match v with
  | VUndef | VNull | VBool _ | VNum _ | VStr _ => true
  | _ => false
  end.


(** A small client used to exercise the statements: function 0 returns
    its first argument, function 1 throws it, function 2 calls
    [this._super] with its arguments and function 3 registers function 0 as
    a before-hook of its first argument.  Function [10 + k] appends the
    digit [k] to the receiver's [trace]; function 10 then returns its
    first argument, the later ones call [this._super]. *)
Definition sample_text (id : nat) : string :=
  if Nat.eqb id 2 then
    "function() { return this._super.apply(this, arguments); }"
  else if Nat.ltb 10 id then
    "function() { this.trace = 10 * this.trace + k; return this._super.apply(this, arguments); }"
  else "function(x) { }".

Definition trace_of (t : value) : Z :=
  match t with
  | VNum z => z
  | _ => 0
  end.

Definition sample_body (id : nat) (this : value) (args : list value)
  : prog :=
  if Nat.leb 10 id then
    GetP this "trace" (fun t =>
    SetP this "trace" (VNum (10 * trace_of t + Z.of_nat (id - 10)))
      (if Nat.eqb id 10 then Ret (arg 0 args)
       else GetP this "_super" (fun f =>
            Call f this args (fun r => Ret r))))
  else
    match id with
    | 0 => Ret (arg 0 args)
    | 1 => Throw (arg 0 args)
    | 2 => GetP this "_super" (fun f => Call f this args (fun r => Ret r))
    | _ => GetP (arg 0 args) "addHook" (fun f =>
           Call f (arg 0 args) [VStr "before"; VFun (FUser 0)]
             (fun _ => Ret VUndef))
    end.

Definition sample_env : env :=
  Env sample_text sample_body (fun _ _ => VStr "element").

(** The heap and the table of hook records only grow. *)
Definition grows (s s' : state) : Prop :=
  length (st_heap s) <= length (st_heap s')
  /\ length (st_hooks s) <= length (st_hooks s').

Definition call_grows
    (call : value -> value -> list value -> state -> result) : Prop :=
  forall f this args s o s', call f this args s = (o, s') -> grows s s'.

(** A heap for the examples: object 0 is a base prototype whose member
    [m] is client function 0, object 1 is an instance whose prototype is
    object 0. *)
Definition demo_state : state :=
  State [Obj None false [("m", VFun (FUser 0))]; Obj (Some 0) false []]
        [] false.


(** [typeof v == "function"] and [typeof v == "object"]. *)
Definition callable (v : value) : bool := String.eqb (typeof v) "function".
Definition typeof_object (v : value) : bool := String.eqb (typeof v) "object".

(** The text [fnTest] is applied to: [String(v)] of a function. *)
Definition value_text (E : env) (v : value) : string :=
  match v with
  | VFun f => func_text E f
  | _ => ""
  end.

(** The exported class extended with [$element: null, defaults: null]. *)
Definition null_override_prog : prog :=
  NewObj [] (fun d =>
  NewObj [] (fun o =>
  extend_with root_class (class_members d o) (fun c =>
  extend_with c [("$element", VNull); ("defaults", VNull)] (fun c2 =>
  Ret c2)))).


(** A base class whose [defaults] is [{a: 1, b: 2}], then what [cont]
    does with it. *)
Definition defaults_base_prog (cont : value -> prog) : prog :=
  NewObj [("a", VNum 1); ("b", VNum 2)] (fun d =>
  extend_with root_class [("defaults", d)] cont).

(** The base class extended with [defaults: {b: 3, c: 4}]. *)
Definition defaults_sub_prog : prog :=
  defaults_base_prog (fun base =>
  NewObj [("b", VNum 3); ("c", VNum 4)] (fun d2 =>
  extend_with base [("defaults", d2)] (fun sub => Ret sub))).


(** A state whose object 0 is a prototype with an [init] member (client
    function 0). *)
Definition init_state : state :=
  State [Obj None false [("init", VFun (FUser 0))]] [] false.


(** The objects a member lookup on [l] visits. *)
Fixpoint proto_chain (fuel : nat) (h : heap) (l : loc) : list loc :=
  match fuel with
  | O => []
  | S n =>
      l :: match h !! l with
           | Some o =>
               match o_proto o with
               | Some p => proto_chain n h p
               | None => []
               end
           | None => []
           end
  end.

(** [l] does not find [o] on its lookup path. *)
Definition off_chain (h : heap) (l o : loc) : Prop :=
  ~ In o (proto_chain (S (length h)) h l).


(** The module is loaded and two instances of the exported class are
    constructed, [new Class("#a")] and [new Class("#b")]: the class
    prototype is object 4, its [options] is object 2, the instances are
    objects 5 and 6. *)
Definition two_instances_prog : prog :=
  NewObj [] (fun d =>
  NewObj [] (fun o =>
  extend_with root_class (class_members d o) (fun c =>
  New c [VStr "#a"] (fun a =>
  New c [VStr "#b"] (fun b => Ret c))))).

Definition two_instances : state :=
  Eval vm_compute in snd (run sample_env 6 two_instances_prog initial_state).


(** Prototype links point to objects allocated earlier: a link is set when
    an object is created and never changed afterwards. *)
Definition wf_heap (h : heap) : Prop :=
  forall l o p, h !! l = Some o -> o_proto o = Some p -> p < l.


(** The prototype of a class of the library. *)
Definition class_proto (c : value) : option loc :=
  match c with
  | VFun (FClass p _) | VFun (FRootClass p) => Some p
  | _ => None
  end.

(** [c] is a class with prototype [p] on whose [extend] no hook is
    registered. *)
Definition plain_class (s : state) (c : value) (p : loc) : Prop :=
  c = VFun (FRootClass p)
  \/ exists h, c = VFun (FClass p h) /\ hooks_of s h = HookReg [] [].

(** The override map [{ m: fn }] and the prototype extend builds from it
    over the base prototype [p]. *)
Definition override_map (m : string) (fn : value) : obj :=
  Obj None false [(m, fn)].

Definition override_proto (m : string) (p : loc) (fn : value) : obj :=
  Obj (Some p) false [(m, VFun (FSuperWrap (VObj p) m fn))].


(** Successive [extend] calls, each overriding the member [m]: the class
    built by one call is the base of the next. *)
Fixpoint extend_chain (E : env) (fuel : nat) (m : string) (c : value)
    (fns : list value) (s : state) : result :=
  match fns with
  | [] => (Normal c, s)
  | fn :: rest =>
      match run E fuel (extend_with c [(m, fn)] (fun c' => Ret c')) s with
      | (Normal c', s') => extend_chain E fuel m c' rest s'
      | r => r
      end
  end.

(** Each extend of the chain allocates the override map and then the new
    prototype: the prototype of level [k] (counted from 0) of a chain
    started on a heap of [base] objects, and the prototype it extends. *)
Definition level_proto (base k : nat) : loc := base + 2 * k + 1.

Definition parent_proto (p : loc) (base k : nat) : loc :=
  match k with
  | O => p
  | S j => level_proto base j
  end.

(** An override that is a function whose text mentions [_super]. *)
Definition delegating (E : env) (fn : value) : Prop :=
  callable fn = true /\ fnTest (value_text E fn) = true.


(** A root class whose prototype (object 0) defines [m] as client
    function 10, and three overrides of [m] that call [this._super]. *)
Definition chain_state : state :=
  State [Obj None false [("m", VFun (FUser 10))]] [] false.

Definition chain_overrides : list value :=
  [VFun (FUser 11); VFun (FUser 12); VFun (FUser 13)].


(** [new Class(el).getRawElement()] on the freshly loaded module. *)
Definition raw_element_prog (el : value) : prog :=
  NewObj [] (fun d =>
  NewObj [] (fun o =>
  extend_with root_class (class_members d o) (fun c =>
  New c [el] (fun i =>
  GetP i "getRawElement" (fun f =>
  Call f i [] (fun r => Ret r)))))).


(** States with one hookable function (record 0) for the examples: no
    hook; a throwing before-hook; an undefined entry before a throwing
    hook; a number as before-hook; a before-hook that registers another. *)
Definition hooks_state (b a : list value) : state :=
  State [Obj None false []] [HookReg b a] false.


(** No member the override map [lp] offers is of [typeof] "object": none
    takes the merge branch of extend. *)
Definition merge_free (h : heap) (lp : loc) : Prop :=
  forall k, typeof_object (get_prop h lp k) = false.

(** Hook records nothing is registered in. *)
Definition all_empty (hs : list hookreg) : Prop :=
  Forall (fun r => r = HookReg [] []) hs.

(** What extend puts under the name [k] of the new prototype, for a base
    prototype [p] and an override map [lp] read in the heap [h]: the
    closure giving [_super], a hookable function with a record allocated
    by this extend (its index is at least [nhooks]), or the value itself. *)
Definition built_member (E : env) (h : heap) (p lp : loc) (nhooks : nat)
    (k : string) (v : value) : Prop :=
  let pv := get_prop h lp k in
  if callable pv then
    if callable (get_prop h p k) && fnTest (value_text E pv)
    then v = VFun (FSuperWrap (VObj p) k pv)
    else exists r, nhooks <= r /\ v = VFun (FHookable r pv)
  else v = pv.


(** A base prototype (object 0) with the method [m], and an override map
    (object 1) offering an override of [m] that mentions [_super], a
    number and a new function. *)
Definition members_state : state :=
  State [Obj None false [("m", VFun (FUser 10))];
         Obj None false [("m", VFun (FUser 11)); ("n", VNum 1);
                         ("f", VFun (FUser 0))]]
        [] false.

(** A base prototype (object 0) and an empty override map (object 1). *)
Definition empty_map_state : state :=
  State [Obj None false [("m", VFun (FUser 10))]; Obj None false []] [] false.


(** ** The identifier helper [_uid] and the cleaning done by [uid]

    What [_uid] reads of the element wrapper handed to it: the [id] and
    [name] attributes ([attr] gives a string, or undefined for a missing
    attribute), the form the element belongs to ([context.form], with its
    [id] and [name] strings; absent when [context] or its [form] is
    undefined or null) and the position [index()]. *)
Record form_info : Type := FormInfo {
  form_id : string;
  form_name : string
}.

Record element_info : Type := ElementInfo {
  attr_id : option string;
  attr_name : option string;
  el_form : option form_info;
  el_index : Z
}.

(** Truthiness of what [attr] returns. *)
Definition attr_truthy (a : option string) : bool :=
  match a with
  | Some s => negb (String.eqb s "")
  | None => false
  end.

(** [_uid($element)] *)
Definition _uid (el : element_info) : string + jserror :=
  if attr_truthy (attr_id el) then inl (default "" (attr_id el))
  else if attr_truthy (attr_name el) then inl (default "" (attr_name el))
  else
    match el_form el with
    | None => inr (TypeError "cannot read a member of undefined or null")
    | Some f =>
        (* var form = ''; if (form.id) form = form.id; *)
        let form := if negb (String.eqb (form_id f) "") then form_id f else "" in
        (* if (!form && form.name) form = form.name; *)
        let form :=
          if String.eqb form "" && negb (String.eqb (form_name f) "")
          then form_name f else form in
        (* return form + $element.index(); *)
        inl (String.append form (pretty (el_index el)))
    end.

(** [s.replace(re, '')] for a regular expression that matches one
    character, without the [g] flag: the first matching character goes. *)
Fixpoint remove_first (f : ascii -> bool) (s : string) : string :=
  match s with
  | EmptyString => EmptyString
  | String c r => if f c then r else String c (remove_first f r)
  end.

(** The source line of [uid] reads
    [.replace(/[/,'').replace(/]/,'').replace(/:/,'')].  Inside a
    character class a [/] does not end a regular expression literal, so
    the first literal runs from [/[] to []/]: it is the class of the
    characters listed here, and its replacement is the [''] that follows.
    (Read as three replacements, the first literal would be an unclosed
    class and the file would not load.) *)
Definition uid_class_text : string := "/,').replace(/".

Definition uid_class (c : ascii) : bool :=
  existsb (Ascii.eqb c) (list_ascii_of_string uid_class_text).

Definition is_colon (c : ascii) : bool := Ascii.eqb c ":"%char.

(** What [uid] does to the string [_uid] returns. *)
Definition uid_clean (s : string) : string :=
  remove_first is_colon (remove_first uid_class s).

(** [uid()] for an element. *)
Definition uid_of (el : element_info) : string + jserror :=
  match _uid el with
  | inl s => inl (uid_clean s)
  | inr e => inr e
  end.

Fixpoint string_filter (f : ascii -> bool) (s : string) : string :=
  match s with
  | EmptyString => EmptyString
  | String c r => if f c then String c (string_filter f r) else string_filter f r
  end.

(** The last character of a string is a word character. *)
Fixpoint ends_with_word (s : string) : bool :=
  match s with
  | EmptyString => false
  | String c EmptyString => is_word_char c
  | String _ r => ends_with_word r
  end.


(** ** Notions for [setOptions] on flat option maps *)

(** An object literal whose members are primitive values. *)
Definition flat_object (h : heap) (l : loc) (ps : props) : Prop :=
  h !! l = Some (Obj None false ps)
  /\ Forall (fun kv => primitive (snd kv) = true) ps.

(** The first of [a] and [b] that is defined. *)
Definition defined_or (a : option value) (b : value) : value :=
  match a with
  | Some VUndef | None => b
  | Some v => v
  end.

(** The members of a target after the members [ks] of a flat source [src]
    have been merged into it: the undefined ones are skipped. *)
Fixpoint flat_merge (src : props) (ks : list string) (pt : props) : props :=
  match ks with
  | [] => pt
  | k :: r =>
      match alist_get k src with
      | Some VUndef | None => flat_merge src r pt
      | Some v => flat_merge src r (alist_set k v pt)
      end
  end.

Definition merge_get (src prev : option value) : option value :=
  match src with
  | Some VUndef | None => prev
  | Some v => Some v
  end.

(** A decision procedure for [wf_heap]. *)
Fixpoint wf_from (i : nat) (h : heap) : bool :=
  match h with
  | [] => true
  | o :: r =>
      match o_proto o with
      | Some p => Nat.ltb p i
      | None => true
      end && wf_from (S i) r
  end.

(** The two instances of the exported class and an options literal
    [{color: "red", size: undefined}] (object 7). *)
Definition options_state : state :=
  with_heap two_instances
    (st_heap two_instances
     ++ [Obj None false [("color", VStr "red"); ("size", VUndef)]]).


(** A class prototype (object 0) whose [defaults] is [{color: "blue"}]
    (object 1) and whose [options] is [{}] (object 2), an instance
    (object 3) and an options literal [{size: 1}] (object 4). *)
Definition defaults_state : state :=
  State [Obj None false [("defaults", VObj 1); ("options", VObj 2)];
         Obj None false [("color", VStr "blue")];
         Obj None false [];
         Obj (Some 0) false [];
         Obj None false [("size", VNum 1)]]
        [] false.

(** * Properties *)

(** ** Own members win over the prototype chain *)

Lemma alist_get_set_eq (k : string) (v : value) (m : props) :
  alist_get k (alist_set k v m) = Some v.
Proof.
  induction m as [|[k' v'] m IH]; simpl.
  - now rewrite String.eqb_refl.
  - destruct (String.eqb k k') eqn:Hk; simpl.
    + now rewrite String.eqb_refl.
    + now rewrite Hk.
Qed.

Lemma alist_get_set_ne (k k' : string) (v : value) (m : props) :
  k <> k' -> alist_get k (alist_set k' v m) = alist_get k m.
Proof.
  intros Hne. induction m as [|[k0 v0] m IH]; simpl.
  - destruct (String.eqb k k') eqn:Hk; [|reflexivity].
    apply String.eqb_eq in Hk. contradiction.
  - destruct (String.eqb k' k0) eqn:Hk0; simpl.
    + apply String.eqb_eq in Hk0. subst k0.
      destruct (String.eqb k k') eqn:Hk; [|reflexivity].
      apply String.eqb_eq in Hk. contradiction.
    + now rewrite IH.
Qed.

Lemma get_prop_set_eq (h : heap) (l : loc) (k : string) (v : value) :
  l < length h -> get_prop (set_prop h l k v) l k = v.
Proof.
  intros Hl. unfold get_prop, set_prop.
  destruct (h !! l) as [o|] eqn:Ho.
  - cbn [chain_get]. rewrite list_lookup_insert_eq by exact Hl.
    cbn [o_props]. now rewrite alist_get_set_eq.
  - apply lookup_ge_None in Ho. lia.
Qed.

Lemma set_prop_length (h : heap) (l : loc) (k : string) (v : value) :
  length (set_prop h l k v) = length h.
Proof.
  unfold set_prop. destruct (h !! l); [apply length_insert|reflexivity].
Qed.

Lemma chain_get_set_frame (n : nat) (h : list obj) (o : nat) (k : string)
    (v : value) (k' : string) :
  forall l, ~ In o (proto_chain n h l) ->
            chain_get n (set_prop h o k v) l k' = chain_get n h l k'.
Proof.
  induction n as [|n IH]; intros l Hl; [reflexivity|].
  cbn [proto_chain] in Hl. cbn [chain_get].
  assert (l <> o) as Hne by (intros ->; apply Hl; now left).
  assert (set_prop h o k v !! l = h !! l) as Hlook.
  { unfold set_prop. destruct (h !! o); [|reflexivity].
    apply list_lookup_insert_ne. congruence. }
  rewrite Hlook. destruct (h !! l) as [ob|]; [|reflexivity].
  destruct (alist_get k' (o_props ob)); [reflexivity|].
  destruct (o_proto ob) as [p|]; [|reflexivity].
  apply IH. intros Hin. apply Hl. now right.
Qed.

Lemma get_prop_set_frame (h : list obj) (o l : nat) (k k' : string)
    (v : value) :
  off_chain h l o -> get_prop (set_prop h o k v) l k' = get_prop h l k'.
Proof.
  intros Hoff. unfold get_prop. rewrite set_prop_length.
  now rewrite chain_get_set_frame.
Qed.

(** ** Lookups in a heap that has grown *)

Lemma chain_get_fuel (h : list obj) (k : string) :
  wf_heap h ->
  forall n n' l, l < n -> l < n' -> chain_get n h l k = chain_get n' h l k.
Proof.
  intros Hwf. induction n as [|n IH]; intros n' l Hn Hn'; [lia|].
  destruct n' as [|n']; [lia|]. cbn [chain_get].
  destruct (h !! l) as [o|] eqn:Ho; [|reflexivity].
  destruct (alist_get k (o_props o)); [reflexivity|].
  destruct (o_proto o) as [p|] eqn:Hp; [|reflexivity].
  pose proof (Hwf l o p Ho Hp). apply IH; lia.
Qed.

Lemma chain_get_app (h ext : list obj) (k : string) :
  wf_heap h ->
  forall n l, l < length h ->
              chain_get n (h ++ ext) l k = chain_get n h l k.
Proof.
  intros Hwf. induction n as [|n IH]; intros l Hl; [reflexivity|].
  cbn [chain_get]. rewrite lookup_app_l by exact Hl.
  destruct (h !! l) as [o|] eqn:Ho; [|reflexivity].
  destruct (alist_get k (o_props o)); [reflexivity|].
  destruct (o_proto o) as [p|] eqn:Hp; [|reflexivity].
  pose proof (Hwf l o p Ho Hp). apply IH. lia.
Qed.

Lemma get_prop_app (h ext : list obj) (l : nat) (k : string) :
  wf_heap h -> l < length h ->
  get_prop (h ++ ext) l k = get_prop h l k.
Proof.
  intros Hwf Hl. unfold get_prop. rewrite chain_get_app by assumption.
  f_equal. apply chain_get_fuel; [exact Hwf| |lia].
  rewrite length_app. lia.
Qed.

Lemma get_prop_own (h : list obj) (l : nat) (k : string) (v : value) :
  own_prop h l k = Some v -> get_prop h l k = v.
Proof.
  unfold own_prop, get_prop. cbn [chain_get].
  destruct (h !! l) as [o|]; [|discriminate].
  now intros ->.
Qed.

Lemma own_prop_app (h ext : list obj) (l : nat) (k : string) :
  l < length h -> own_prop (h ++ ext) l k = own_prop h l k.
Proof.
  intros Hl. unfold own_prop. now rewrite lookup_app_l.
Qed.

Lemma wf_heap_app (h : list obj) (o : obj) :
  wf_heap h ->
  (forall p, o_proto o = Some p -> p < length h) ->
  wf_heap (h ++ [o]).
Proof.
  intros Hwf Ho l o' p Hl Hp.
  destruct (decide (l < length h)) as [Hlt|Hge].
  - rewrite lookup_app_l in Hl by exact Hlt. eauto.
  - rewrite lookup_app_r in Hl by lia.
    destruct (l - length h) as [|d] eqn:Hd; [|destruct d; discriminate Hl].
    cbn in Hl. inversion Hl; subst o'. apply Ho in Hp. lia.
Qed.

Lemma wf_heap_set_prop (h : list obj) (l : nat) (k : string) (v : value) :
  wf_heap h -> wf_heap (set_prop h l k v).
Proof.
  intros Hwf l' o' p Hl Hp. unfold set_prop in Hl.
  destruct (h !! l) as [o|] eqn:Ho; [|eauto].
  destruct (decide (l' = l)) as [->|Hne].
  - rewrite list_lookup_insert_eq in Hl
      by (apply lookup_lt_Some in Ho; exact Ho).
    inversion Hl; subst o'. cbn in Hp. eauto.
  - rewrite list_lookup_insert_ne in Hl by congruence. eauto.
Qed.

(** ** Objects are never freed *)

Lemma grows_refl (s : state) : grows s s.
Proof. split; lia. Qed.

Lemma grows_trans (s1 s2 s3 : state) :
  grows s1 s2 -> grows s2 s3 -> grows s1 s3.
Proof. intros [? ?] [? ?]. split; lia. Qed.

Lemma grows_with_heap (s : state) (h : list obj) :
  length (st_heap s) <= length h -> grows s (with_heap s h).
Proof. intros H. split; simpl; lia. Qed.

Lemma assign_length (h h' : list obj) (v : value) (k : string) (x : value) :
  assign h v k x = inl h' -> length h' = length h.
Proof.
  destruct v; simpl; intros H; inversion H; subst; auto using set_prop_length.
Qed.

Lemma merge_clone_length (h h1 : list obj) (src : value) (c cl : nat) :
  merge_clone h src c = (cl, h1) -> length h <= length h1.
Proof.
  unfold merge_clone, alloc. intros H.
  destruct src; try (inversion H; subst; rewrite length_app; simpl; lia).
  destruct (if is_array h c then is_array h l else is_plain h l);
    inversion H; subst; [lia|rewrite length_app; simpl; lia].
Qed.

Lemma jq_merge_keys_length (rec : list obj -> nat -> nat -> option (list obj))
    (t s : nat) (ks : list string) :
  (forall h a b h', rec h a b = Some h' -> length h <= length h') ->
  forall h h', jq_merge_keys rec t s ks h = Some h' -> length h <= length h'.
Proof.
  intros Hrec. induction ks as [|name ks IH]; intros h h' H; simpl in H.
  - inversion H; subst; lia.
  - destruct (get_prop h s name) eqn:Hc;
      try (apply IH in H; rewrite set_prop_length in H; exact H).
    + now apply IH in H.
    + destruct (Nat.eqb l t); [now apply IH in H|].
      destruct (is_plain h l || is_array h l).
      * destruct (merge_clone h (get_prop h t name) l) as [cl h1] eqn:Hm.
        apply merge_clone_length in Hm.
        destruct (rec h1 cl l) as [h2|] eqn:Hr; [|discriminate].
        apply Hrec in Hr. apply IH in H. rewrite set_prop_length in H. lia.
      * apply IH in H. rewrite set_prop_length in H. exact H.
Qed.

Lemma jq_merge_length (fuel : nat) :
  forall h t s h', jq_merge fuel h t s = Some h' -> length h <= length h'.
Proof.
  induction fuel as [|n IH]; intros h t s h' H; simpl in H; [discriminate|].
  eapply jq_merge_keys_length; eauto.
Qed.

Lemma jq_merge_all_length (fuel : nat) (t : nat) (srcs : list value) :
  forall h h', jq_merge_all fuel h t srcs = Some h' -> length h <= length h'.
Proof.
  induction srcs as [|v srcs IH]; intros h h' H; simpl in H.
  - inversion H; subst; lia.
  - destruct v; try (now apply IH in H).
    destruct (jq_merge fuel h t l) as [h1|] eqn:Hm; [|discriminate].
    apply jq_merge_length in Hm. apply IH in H. lia.
Qed.

Lemma jQuery_extend_length (fuel : nat) (h h' : list obj) (target v : value)
    (srcs : list value) :
  jQuery_extend fuel h target srcs = Some (v, h') -> length h <= length h'.
Proof.
  unfold jQuery_extend. intros H.
  destruct target;
    try (cbn [alloc] in H;
         destruct (jq_merge_all fuel (h ++ [Obj None false []]) (length h) srcs)
           as [h1|] eqn:Hm; [|discriminate];
         apply jq_merge_all_length in Hm; rewrite length_app in Hm;
         inversion H; subst; simpl in Hm; lia);
    try (inversion H; subst; lia).
  destruct (jq_merge_all fuel h l srcs) as [h1|] eqn:Hm; [|discriminate].
  apply jq_merge_all_length in Hm. inversion H; subst; lia.
Qed.

Ltac inv_res H := inversion H; subst; clear H.

Section Grows.

Context (E : env) (fuel : nat).
Context (call : value -> value -> list value -> state -> result).
Hypothesis call_ok : call_grows call.

Lemma Class_grows (this : value) (args : list value)
    (s s' : state) (o : outcome) :
  _Class call this args s = (o, s') -> grows s s'.
Proof.
  unfold _Class. intros H.
  destruct (negb (st_initializing s)); [|inv_res H; apply grows_refl].
  destruct (member (st_heap s) this "init") as [init|e];
    [|inv_res H; apply grows_refl].
  destruct (truthy init); [|inv_res H; apply grows_refl].
  destruct (call init this args s) as [[v|e|] s1] eqn:Hc;
    apply call_ok in Hc; inv_res H; exact Hc.
Qed.

Lemma construct_grows (c : value) (args : list value)
    (s s' : state) (o : outcome) :
  construct call c args s = (o, s') -> grows s s'.
Proof.
  unfold construct, type_error. intros H.
  destruct c as [| | | | | |f|]; try (inv_res H; apply grows_refl).
  destruct f; try (inv_res H; apply grows_refl); cbn [alloc] in H.
  - inv_res H. apply grows_with_heap. rewrite length_app. simpl. lia.
  - destruct (_Class call (VObj (length (st_heap s))) args _)
      as [[v|e|] s1] eqn:Hc; apply Class_grows in Hc;
      inv_res H;
      (eapply grows_trans; [|exact Hc]);
      apply grows_with_heap; rewrite length_app; simpl; lia.
Qed.

Lemma exec_grows (p : prog) :
  forall (s s' : state) (o : outcome),
    exec E fuel call p s = (o, s') -> grows s s'.
Proof.
  induction p as [v|v|ob k cont IH|ob k v cont IH|f this args cont IH
                 |c args cont IH|ms cont IH|name args cont IH
                 |t srcs cont IH]; intros s s' o H; cbn [exec] in H.
  - inv_res H. apply grows_refl.
  - inv_res H. apply grows_refl.
  - destruct (member (st_heap s) ob k) as [x|e];
      [eapply IH; eauto|inv_res H; apply grows_refl].
  - destruct (assign (st_heap s) ob k v) as [h|e] eqn:Ha;
      [|inv_res H; apply grows_refl].
    apply assign_length in Ha. apply IH in H.
    eapply grows_trans; [|exact H]. apply grows_with_heap. lia.
  - destruct (call f this args s) as [[x|e|] s1] eqn:Hc;
      apply call_ok in Hc; [|inv_res H; exact Hc..].
    apply IH in H. eapply grows_trans; eauto.
  - destruct (construct call c args s) as [[x|e|] s1] eqn:Hc;
      apply construct_grows in Hc; [|inv_res H; exact Hc..].
    apply IH in H. eapply grows_trans; eauto.
  - cbn [alloc] in H. apply IH in H.
    eapply grows_trans; [|exact H].
    apply grows_with_heap. rewrite length_app. simpl. lia.
  - eapply IH; eauto.
  - destruct (jQuery_extend fuel (st_heap s) t srcs) as [[x h]|] eqn:Hj;
      [|inv_res H; apply grows_refl].
    apply jQuery_extend_length in Hj. apply IH in H.
    eapply grows_trans; [|exact H]. now apply grows_with_heap.
Qed.

Lemma hooks_loop_grows (sel : hookreg -> list value) (h : nat)
    (this : value) (args : list value) (n : nat) :
  forall (i : nat) (s s' : state) (o : outcome),
    hooks_loop call sel h this args n i s = (o, s') -> grows s s'.
Proof.
  induction n as [|n IH]; intros i s s' o H; cbn [hooks_loop] in H.
  - inv_res H. apply grows_refl.
  - destruct (truthy _); [|inv_res H; apply grows_refl].
    destruct (call _ this args s) as [[x|e|] s1] eqn:Hc;
      apply call_ok in Hc; [|inv_res H; exact Hc..].
    apply IH in H. eapply grows_trans; eauto.
Qed.

Lemma hookableFunction_grows (h : nat) (ifn this : value)
    (args : list value) (s s' : state) (o : outcome) :
  hookableFunction fuel call h ifn this args s = (o, s') -> grows s s'.
Proof.
  unfold hookableFunction. intros H.
  destruct (hooks_loop call before h this args (S fuel) 0 s)
    as [[x|e|] s1] eqn:H1; apply hooks_loop_grows in H1;
    [|inv_res H; exact H1..].
  destruct (call ifn this args s1) as [[r|e|] s2] eqn:H2;
    apply call_ok in H2;
    [|inv_res H; eapply grows_trans; eauto..].
  destruct (hooks_loop call after h this args (S fuel) 0 s2)
    as [[y|e|] s3] eqn:H3; apply hooks_loop_grows in H3;
    inv_res H; eauto using grows_trans.
Qed.

Lemma addHook_grows (h : nat) (args : list value)
    (s s' : state) (o : outcome) :
  addHook h args s = (o, s') -> grows s s'.
Proof.
  unfold addHook. intros H.
  destruct (String.eqb _ "before");
    [inv_res H; split; simpl; rewrite ?length_insert; lia|].
  destruct (String.eqb _ "after");
    inv_res H; split; simpl; rewrite ?length_insert; lia.
Qed.

Lemma superwrap_call_grows (sup : value) (name : string)
    (fn this : value) (args : list value) (s s' : state) (o : outcome) :
  superwrap_call call sup name fn this args s = (o, s') -> grows s s'.
Proof.
  unfold superwrap_call. intros H.
  destruct (member (st_heap s) this "_super") as [tmp|e];
    [|inv_res H; apply grows_refl].
  destruct (member (st_heap s) sup name) as [parent|e];
    [|inv_res H; apply grows_refl].
  destruct (assign (st_heap s) this "_super" parent) as [h1|e] eqn:Ha;
    [|inv_res H; apply grows_refl].
  apply assign_length in Ha.
  assert (grows s (with_heap s h1)) as H0 by (apply grows_with_heap; lia).
  destruct (call fn this args (with_heap s h1)) as [[r|e|] s2] eqn:Hc;
    apply call_ok in Hc;
    [|inv_res H; eauto using grows_trans..].
  destruct (assign (st_heap s2) this "_super" tmp) as [h3|e] eqn:Hb;
    [|inv_res H; eauto using grows_trans].
  apply assign_length in Hb. inv_res H.
  eapply grows_trans; [exact H0|]. eapply grows_trans; [exact Hc|].
  apply grows_with_heap. lia.
Qed.

Lemma hookable_grows (fn f : value) (s s' : state) :
  hookable fn s = (f, s') -> grows s s'.
Proof.
  unfold hookable. intros H. inv_res H.
  split; simpl; rewrite ?length_app; simpl; lia.
Qed.

Lemma extend_member_grows (sup prop : value) (name : string)
    (s s' : state) (o : outcome) :
  extend_member E fuel sup prop name s = (o, s') -> grows s s'.
Proof.
  unfold extend_member. intros H.
  destruct (member (st_heap s) prop name) as [pv|e];
    [|inv_res H; apply grows_refl].
  destruct (String.eqb (typeof pv) "function").
  - destruct (member (st_heap s) sup name) as [bv|e];
      [|inv_res H; apply grows_refl].
    destruct (_ && _); [inv_res H; apply grows_refl|].
    destruct (hookable pv s) as [f s1] eqn:Hh.
    apply hookable_grows in Hh. now inv_res H.
  - destruct (String.eqb (typeof pv) "object");
      [|inv_res H; apply grows_refl].
    destruct (member (st_heap s) sup name) as [bv|e];
      [|inv_res H; apply grows_refl].
    destruct (String.eqb (typeof bv) "object");
      [|inv_res H; apply grows_refl].
    destruct (jQuery_extend fuel (st_heap s) bv [pv]) as [[v h]|] eqn:Hj;
      [|inv_res H; apply grows_refl].
    apply jQuery_extend_length in Hj. inv_res H. now apply grows_with_heap.
Qed.

Lemma extend_loop_grows (sup prop proto : value) (names : list string) :
  forall (s s' : state) (o : outcome),
    extend_loop E fuel sup prop proto names s = (o, s') -> grows s s'.
Proof.
  induction names as [|name rest IH]; intros s s' o H; cbn [extend_loop] in H.
  - inv_res H. apply grows_refl.
  - destruct (extend_member E fuel sup prop name s) as [[v|e|] s1] eqn:Hm;
      apply extend_member_grows in Hm; [|inv_res H; exact Hm..].
    destruct (assign (st_heap s1) proto name v) as [h|e] eqn:Ha;
      [|inv_res H; exact Hm].
    apply assign_length in Ha. apply IH in H.
    eapply grows_trans; [exact Hm|]. eapply grows_trans; [|exact H].
    apply grows_with_heap. lia.
Qed.

Lemma extend_grows (this : value) (args : list value)
    (s s' : state) (o : outcome) :
  extend E fuel call this args s = (o, s') -> grows s s'.
Proof.
  unfold extend. intros H.
  destruct (member (st_heap s) this "prototype") as [sup|e];
    [|inv_res H; apply grows_refl].
  destruct (construct call this [] (with_initializing s true))
    as [[proto|e|] s2] eqn:Hc; apply construct_grows in Hc;
    [|inv_res H; exact Hc..].
  destruct (extend_loop E fuel sup (arg 0 args) proto _ _)
    as [[x|e|] s4] eqn:Hl; apply extend_loop_grows in Hl;
    [|inv_res H; eapply grows_trans; [exact Hc|exact Hl]..].
  assert (grows s s4) as H4 by (eapply grows_trans; [exact Hc|exact Hl]).
  destruct proto; try (inv_res H; exact H4).
  inv_res H. destruct H4 as [? ?].
  split; simpl; rewrite ?length_app; simpl; lia.
Qed.

End Grows.

Lemma apply_grows (E : env) (fuel : nat) : call_grows (apply E fuel).
Proof.
  induction fuel as [|n IH]; intros f this args s o s' H; cbn [apply] in H.
  - inv_res H. apply grows_refl.
  - destruct f as [| | | | | |f|]; try (inv_res H; apply grows_refl).
    destruct f.
    + eapply exec_grows; eauto.
    + eapply exec_grows; eauto.
    + eapply hookableFunction_grows; eauto.
    + eapply superwrap_call_grows; eauto.
    + inv_res H. apply grows_refl.
    + eapply Class_grows; eauto.
    + eapply extend_grows; eauto.
    + eapply addHook_grows; eauto.
Qed.

(** ** Decimal keys have no letters *)

Lemma has_lower_pretty_N_go (x : N) (s : string) :
  has_lower (pretty_N_go x s) = has_lower s.
Proof.
  revert s. induction (N.lt_wf_0 x) as [x _ IH]; intros s.
  assert (x = 0 \/ 0 < x)%N as [->|Hx] by lia.
  - now rewrite pretty_N_go_0.
  - rewrite pretty_N_go_step by exact Hx. rewrite IH.
    + assert (x `mod` 10 < 10)%N as Hm by (apply N.mod_lt; lia).
      generalize dependent (x `mod` 10)%N. intros y Hy.
      assert (y = 0 \/ y = 1 \/ y = 2 \/ y = 3 \/ y = 4 \/ y = 5
              \/ y = 6 \/ y = 7 \/ y = 8 \/ y = 9)%N as Hd by lia.
      repeat (destruct Hd as [Hd|Hd]; [now rewrite Hd|]). now rewrite Hd.
    + now apply N.div_lt.
Qed.

Lemma has_lower_pretty_N (x : N) : has_lower (pretty x) = false.
Proof.
  unfold pretty, pretty_N. destruct (decide (x = 0%N)); [reflexivity|].
  now rewrite has_lower_pretty_N_go.
Qed.

Lemma has_lower_pretty_Z (n : Z) : has_lower (pretty n) = false.
Proof.
  destruct n as [|p|p]; [reflexivity| |].
  - apply (has_lower_pretty_N (Npos p)).
  - change (pretty (Zneg p)) with ("-" +:+ pretty (Npos p)).
    simpl. apply has_lower_pretty_N.
Qed.

Lemma to_key_before_after (v : value) :
  primitive v = true ->
  (to_key v = "before" -> v = VStr "before")
  /\ (to_key v = "after" -> v = VStr "after").
Proof.
  intros Hp. destruct v as [| |[|]|n|s|l|f|e]; try discriminate Hp; simpl;
    try (split; discriminate).
  - split; intros H; pose proof (has_lower_pretty_Z n) as Hn;
      rewrite H in Hn; discriminate Hn.
  - split; intros ->; reflexivity.
Qed.

(** ** Hook registration *)



(** ** The hookable wrapper *)

Lemma apply_normal_truthy (E : env) (n : nat) (f this : value)
    (args : list value) (s s' : state) (v : value) :
  apply E n f this args s = (Normal v, s') -> truthy f = true.
Proof.
  destruct n as [|n]; [discriminate|].
  destruct f; try discriminate; reflexivity.
Qed.

Lemma apply_hookable (E : env) (n h : nat) (ifn this : value)
    (args : list value) (s : state) :
  apply E (S n) (VFun (FHookable h ifn)) this args s
  = hookableFunction n (apply E n) h ifn this args s.
Proof. reflexivity. Qed.

Lemma hooks_loop_step (call : value -> value -> list value -> state -> result)
    (sel : hookreg -> list value) (h : nat) (this : value)
    (args : list value) (n i : nat) (s s' : state) (v : value) :
  truthy (nth i (sel (hooks_of s h)) VUndef) = true /\
  call (nth i (sel (hooks_of s h)) VUndef) this args s = (Normal v, s') ->
  hooks_loop call sel h this args (S n) i s
  = hooks_loop call sel h this args n (S i) s'.
Proof.
  intros [Ht Hc]. cbn [hooks_loop]. now rewrite Ht, Hc.
Qed.

Lemma hooks_loop_stop (call : value -> value -> list value -> state -> result)
    (sel : hookreg -> list value) (h : nat) (this : value)
    (args : list value) (n i : nat) (s : state) :
  truthy (nth i (sel (hooks_of s h)) VUndef) = false ->
  hooks_loop call sel h this args (S n) i s = (Normal VUndef, s).
Proof.
  intros Ht. cbn [hooks_loop]. now rewrite Ht.
Qed.

(** C5: a hookable function whose before-hooks are [a, b] and whose
    after-hooks are [c, d] runs, in one invocation with receiver [r] and
    arguments [xs], the calls [a], [b], the wrapped function, [c], [d] in
    that order, each with [r] and [xs]; the values the hooks return are
    dropped and the result is the one of the wrapped function.  The five
    calls are taken to return normally and to leave the registry of the
    function as it is. *)
Theorem hookable_runs_before_fn_after (E : env) (n h : nat)
    (fn a b c d r : value) (xs : list value)
    (s s1 s2 s3 s4 s5 : state) (va vb v vc vd : value) :
  2 <= n ->
  hooks_of s h = HookReg [a; b] [c; d] ->
  apply E n a r xs s = (Normal va, s1) -> hooks_of s1 h = hooks_of s h ->
  apply E n b r xs s1 = (Normal vb, s2) -> hooks_of s2 h = hooks_of s h ->
  apply E n fn r xs s2 = (Normal v, s3) -> hooks_of s3 h = hooks_of s h ->
  apply E n c r xs s3 = (Normal vc, s4) -> hooks_of s4 h = hooks_of s h ->
  apply E n d r xs s4 = (Normal vd, s5) -> hooks_of s5 h = hooks_of s h ->
  apply E (S n) (VFun (FHookable h fn)) r xs s = (Normal v, s5).
Proof.
  intros Hn Hreg Ha R1 Hb R2 Hf R3 Hc R4 Hd R5.
  rewrite Hreg in R1, R2, R3, R4, R5.
  pose proof (apply_normal_truthy _ _ _ _ _ _ _ _ Ha) as Ta.
  pose proof (apply_normal_truthy _ _ _ _ _ _ _ _ Hb) as Tb.
  pose proof (apply_normal_truthy _ _ _ _ _ _ _ _ Hc) as Tc.
  pose proof (apply_normal_truthy _ _ _ _ _ _ _ _ Hd) as Td.
  rewrite apply_hookable. unfold hookableFunction.
  destruct n as [|[|m]]; [lia|lia|].
  rewrite (hooks_loop_step _ before h r xs _ 0 s s1 va)
    by (rewrite Hreg; split; assumption).
  rewrite (hooks_loop_step _ before h r xs _ 1 s1 s2 vb)
    by (rewrite R1; split; assumption).
  rewrite hooks_loop_stop by (rewrite R2; reflexivity).
  cbv beta iota. rewrite Hf.
  rewrite (hooks_loop_step _ after h r xs _ 0 s3 s4 vc)
    by (rewrite R3; split; assumption).
  rewrite (hooks_loop_step _ after h r xs _ 1 s4 s5 vd)
    by (rewrite R4; split; assumption).
  rewrite hooks_loop_stop by (rewrite R5; reflexivity).
  reflexivity.
Qed.

Lemma hookable_runs_before_fn_after_witness :
  apply sample_env 3 (VFun (FHookable 0 (VFun (FUser 0)))) (VObj 0) [VNum 7]
    (State [Obj None false []]
           [HookReg [VFun (FUser 0); VFun (FUser 0)]
                    [VFun (FUser 0); VFun (FUser 0)]] false)
  = (Normal (VNum 7),
     State [Obj None false []]
           [HookReg [VFun (FUser 0); VFun (FUser 0)]
                    [VFun (FUser 0); VFun (FUser 0)]] false).
Proof.
  set (s := State [Obj None false []]
           [HookReg [VFun (FUser 0); VFun (FUser 0)]
                    [VFun (FUser 0); VFun (FUser 0)]] false).
  apply (hookable_runs_before_fn_after sample_env 2 0 (VFun (FUser 0))
           (VFun (FUser 0)) (VFun (FUser 0)) (VFun (FUser 0)) (VFun (FUser 0))
           (VObj 0) [VNum 7] s s s s s s
           (VNum 7) (VNum 7) (VNum 7) (VNum 7) (VNum 7));
    solve [lia | reflexivity].
Defined.

(** ** The [_super] alias around an override *)

Lemma apply_superwrap (E : env) (n : nat) (sup : value) (name : string)
    (fn this : value) (args : list value) (s : state) :
  apply E (S n) (VFun (FSuperWrap sup name fn)) this args s
  = superwrap_call (apply E n) sup name fn this args s.
Proof. reflexivity. Qed.




(** ** Classification of the members of an override map *)

(** The decision [_Class.extend] takes for one name, in the order of the
    source: both callable and the override mentions [_super]; the override
    callable; both of [typeof] "object"; anything else. *)
Lemma extend_member_four_way (E : env) (fuel : nat) (sup : value)
    (prop : nat) (name : string) (s : state) (bv : value) :
  member (st_heap s) sup name = inl bv ->
  let pv := get_prop (st_heap s) prop name in
  extend_member E fuel sup (VObj prop) name s
  = if callable pv && callable bv && fnTest (value_text E pv)
    then (Normal (VFun (FSuperWrap sup name pv)), s)
    else if callable pv
    then (Normal (fst (hookable pv s)), snd (hookable pv s))
    else if typeof_object pv && typeof_object bv
    then match jQuery_extend fuel (st_heap s) bv [pv] with
         | Some (v, h) => (Normal v, with_heap s h)
         | None => (Diverge, s)
         end
    else (Normal pv, s).
Proof.
  intros Hb pv. unfold extend_member, callable, typeof_object, value_text.
  cbn [member]. fold pv. rewrite Hb.
  destruct (String.eqb (typeof pv) "function") eqn:Hf.
  - cbn [andb]. destruct (_ && _); reflexivity.
  - cbn [andb]. destruct (String.eqb (typeof pv) "object"); reflexivity.
Qed.

(** C4 at the member [$element: null] of the exported class: extending
    the class with [$element: null, defaults: null] takes the merge branch
    for both names, since [typeof null] is "object".  The new prototype
    (object 6) gets a fresh empty object (object 7) for [$element] and the
    base's own [defaults] object (object 1) for [defaults]; neither is the
    [null] of the override. *)
Theorem extend_null_override_is_merged (E : env) :
  exists s,
    run E 5 null_override_prog initial_state = (Normal (VFun (FClass 6 8)), s)
    /\ own_prop (st_heap s) 6 "$element" = Some (VObj 7)
    /\ st_heap s !! 7 = Some (Obj None false [])
    /\ own_prop (st_heap s) 6 "defaults" = Some (VObj 1)
    /\ own_prop (st_heap s) 4 "defaults" = Some (VObj 1).
Proof.
  eexists. split; [vm_compute; reflexivity|]. repeat split; reflexivity.
Qed.

(** ** Structured overrides *)

(** The merge branch hands the base member itself to the merge, which
    returns its target: the value given to the new prototype is the very
    object the base prototype holds. *)
Lemma extend_member_merge_is_base_object (E : env) (fuel : nat)
    (sup : value) (prop : nat) (name : string) (s s' : state)
    (b p : nat) (v : value) :
  member (st_heap s) sup name = inl (VObj b) ->
  get_prop (st_heap s) prop name = VObj p ->
  extend_member E fuel sup (VObj prop) name s = (Normal v, s') ->
  v = VObj b.
Proof.
  intros Hb Hp H. unfold extend_member in H. cbn [member] in H.
  rewrite Hp, Hb in H. simpl in H.
  destruct (jq_merge fuel (st_heap s) b p); inv_res H; reflexivity.
Qed.

(** C2 at the example of the specification: a base class with [defaults]
    [{a: 1, b: 2}] (object 1, held by the base prototype, object 3) is
    extended with [defaults: {b: 3, c: 4}].  The new prototype (object 6)
    gets the merged members, but as the same object 1, which the base
    prototype still holds: the base's [defaults] now reads
    [{a: 1, b: 3, c: 4}] too. *)
Theorem extend_merge_writes_into_base_defaults (E : env) :
  (exists s0,
      run E 4 (defaults_base_prog (fun base => Ret base)) initial_state
      = (Normal (VFun (FClass 3 0)), s0)
      /\ own_prop (st_heap s0) 3 "defaults" = Some (VObj 1)
      /\ st_heap s0 !! 1
         = Some (Obj None false [("a", VNum 1); ("b", VNum 2)]))
  /\ (exists s,
      run E 5 defaults_sub_prog initial_state = (Normal (VFun (FClass 6 1)), s)
      /\ own_prop (st_heap s) 6 "defaults" = Some (VObj 1)
      /\ own_prop (st_heap s) 3 "defaults" = Some (VObj 1)
      /\ st_heap s !! 1
         = Some (Obj None false [("a", VNum 1); ("b", VNum 3); ("c", VNum 4)])).
Proof.
  split; eexists; (split; [vm_compute; reflexivity|]);
    repeat split; reflexivity.
Qed.

(** ** Construction and deferred initialisation *)

(** C7: for a class [c] produced by extend, with prototype [p]:
    - outside the suppression state, [new c(args...)] allocates the
      instance and, when the instance's [init] is defined (truthy), calls
      it with the instance as receiver and exactly [args]; otherwise it
      does nothing more;
    - the instantiation under [initializing = true] allocates the
      instance and calls nothing, whatever [init] is;
    - [c.extend] performs exactly that instantiation: its result does not
      depend on the interpreter of calls, so it runs no [init]. *)
Theorem constructor_runs_init_unless_suppressed (E : env) (n p h : nat)
    (args : list value) (s : state)
    (call : value -> value -> list value -> state -> result) :
  let c := VFun (FClass p h) in
  let l := length (st_heap s) in
  let fresh := (st_heap s ++ [Obj (Some p) false []])%list in
  (st_initializing s = false ->
   new E n c args s
   = if truthy (get_prop fresh l "init")
     then match apply E n (get_prop fresh l "init") (VObj l) args
                  (with_heap s fresh) with
          | (Normal _, s') => (Normal (VObj l), s')
          | r => r
          end
     else (Normal (VObj l), with_heap s fresh))
  /\ construct call c [] (with_initializing s true)
     = (Normal (VObj l), with_heap (with_initializing s true) fresh)
  /\ extend E n call c args s
     = let s3 := State fresh (st_hooks s) false in
       match extend_loop E n (VObj p) (arg 0 args) (VObj l)
               (forin_keys fresh (arg 0 args)) s3 with
       | (Normal _, s4) =>
           (Normal (VFun (FClass l (length (st_hooks s4)))),
            snd (hookable (VFun FExtend) s4))
       | r => r
       end.
Proof.
  intros c l fresh. split; [|split].
  - intros Hi. unfold new, construct, c. cbn [alloc]. fold l fresh.
    unfold _Class. cbn [with_heap st_initializing st_heap member].
    rewrite Hi. cbn [negb].
    destruct (truthy (get_prop fresh l "init")); [|reflexivity].
    destruct (apply E n _ (VObj l) args _) as [[x|e|] s1]; reflexivity.
  - reflexivity.
  - unfold extend, c. cbn [member fun_prop].
    change (String.eqb "prototype" "prototype") with true. cbv iota.
    unfold construct. cbn [alloc]. unfold _Class.
    cbn [with_initializing with_heap st_initializing st_heap st_hooks negb].
    fold l fresh.
    destruct (extend_loop E n (VObj p) (arg 0 args) (VObj l) _ _)
      as [[x|e|] s4]; reflexivity.
Qed.

Lemma constructor_runs_init_unless_suppressed_witness :
  new sample_env 1 (VFun (FClass 0 0)) [VNum 7] init_state
  = (Normal (VObj 1),
     with_heap init_state (st_heap init_state ++ [Obj (Some 0) false []])%list).
Proof.
  exact (eq_trans
           (proj1 (constructor_runs_init_unless_suppressed sample_env 1 0 0
                     [VNum 7] init_state (apply sample_env 0)) eq_refl)
           eq_refl).
Defined.

(** ** Options of an instance *)

Lemma apply_lib (E : env) (n : nat) (m : libfn) (this : value)
    (args : list value) (s : state) :
  apply E (S n) (VFun (FLib m)) this args s
  = exec E n (apply E n) (lib_body m this args) s.
Proof. reflexivity. Qed.

Lemma lib_set_stores (E : env) (n i o : nat) (name : string)
    (value : value) (s : state) :
  get_prop (st_heap s) i "options" = VObj o ->
  apply E (S n) (VFun (FLib LSet)) (VObj i) [VStr name; value] s
  = (Normal (VObj i), with_heap s (set_prop (st_heap s) o name value)).
Proof.
  intros Ho. rewrite apply_lib. cbn [lib_body exec member arg nth to_key].
  rewrite Ho. reflexivity.
Qed.

Lemma lib_get_defined (E : env) (n i o : nat) (name : string)
    (value fallback : value) (s : state) :
  get_prop (st_heap s) i "options" = VObj o ->
  get_prop (st_heap s) o name = value ->
  value <> VUndef ->
  apply E (S n) (VFun (FLib LGet)) (VObj i) [VStr name; fallback] s
  = (Normal value, s).
Proof.
  intros Ho Hget Hv. rewrite apply_lib.
  cbn [lib_body exec member arg nth to_key].
  assert (negb (String.eqb (typeof value) "undefined") = true) as Hdef
    by (destruct value; try reflexivity; contradiction).
  rewrite Ho. cbn [member]. rewrite Hget, Hdef.
  cbn [exec member]. rewrite Ho. cbn [member]. rewrite Hget.
  reflexivity.
Qed.

Lemma lib_get_fallback (E : env) (n i o : nat) (name : string)
    (fallback : value) (s : state) :
  get_prop (st_heap s) i "options" = VObj o ->
  get_prop (st_heap s) o name = VUndef ->
  apply E (S n) (VFun (FLib LGet)) (VObj i) [VStr name; fallback] s
  = (Normal fallback, s).
Proof.
  intros Ho Hu. rewrite apply_lib.
  cbn [lib_body exec member arg nth to_key].
  rewrite Ho. cbn [member]. rewrite Hu. reflexivity.
Qed.

(** After [options[name] = value] the receiver still finds the same
    [options] object, and that object holds [value] under [name]. *)
Lemma options_after_set (h : list obj) (i o : nat) (name : string)
    (value : value) :
  get_prop h i "options" = VObj o ->
  o < length h ->
  off_chain h i o ->
  get_prop (set_prop h o name value) i "options" = VObj o
  /\ get_prop (set_prop h o name value) o name = value.
Proof.
  intros Ho Hlen Hoff. split.
  - now rewrite get_prop_set_frame.
  - now apply get_prop_set_eq.
Qed.


Lemma two_instances_off_chain_5 : off_chain (st_heap two_instances) 5 2.
Proof.
  unfold off_chain. vm_compute. intros [H|[H|[H|[]]]]; discriminate H.
Defined.

Lemma two_instances_off_chain_6 : off_chain (st_heap two_instances) 6 2.
Proof.
  unfold off_chain. vm_compute. intros [H|[H|[H|[]]]]; discriminate H.
Defined.

Lemma two_instances_options_length : 2 < length (st_heap two_instances).
Proof. vm_compute. lia. Defined.

Lemma two_instances_options_5 :
  get_prop (st_heap two_instances) 5 "options" = VObj 2.
Proof. vm_compute. reflexivity. Defined.

Lemma two_instances_options_6 :
  get_prop (st_heap two_instances) 6 "options" = VObj 2.
Proof. vm_compute. reflexivity. Defined.




(** The scenario is what the module and two constructor calls produce. *)
Lemma two_instances_run :
  run sample_env 6 two_instances_prog initial_state
  = (Normal (VFun (FClass 4 7)), two_instances).
Proof. vm_compute. reflexivity. Qed.

(** The two instances have no [options] or [defaults] of their own: both
    names resolve to the one pair of objects the class prototype holds. *)
Lemma two_instances_share_prototype_members :
  own_prop (st_heap two_instances) 5 "options" = None
  /\ own_prop (st_heap two_instances) 6 "options" = None
  /\ own_prop (st_heap two_instances) 4 "options" = Some (VObj 2)
  /\ own_prop (st_heap two_instances) 5 "defaults" = None
  /\ own_prop (st_heap two_instances) 6 "defaults" = None
  /\ own_prop (st_heap two_instances) 4 "defaults" = Some (VObj 1).
Proof. vm_compute. repeat split; reflexivity. Qed.

(** [setOptions] on one instance is read by [get] on the other. *)
Example setOptions_shared_example :
  fst (run sample_env 6
         (GetP (VObj 5) "setOptions" (fun f =>
          NewObj [("color", VStr "red")] (fun opts =>
          Call f (VObj 5) [opts] (fun _ =>
          GetP (VObj 6) "get" (fun g =>
          Call g (VObj 6) [VStr "color"; VStr "none"] (fun r => Ret r))))))
         two_instances)
  = Normal (VStr "red").
Proof. vm_compute. reflexivity. Qed.

(** ** The raw element accessor *)

(** C10: [getRawElement] calls [this.element()]; on a receiver that has no
    member [element], as is every instance of the exported class (whose
    accessor is named [getElement]), the call throws a TypeError and
    nothing is returned.  The same holds through the hookable wrapper the
    prototype holds, when no hook is registered on it. *)
Theorem getRawElement_throws (E : env) (n i h : nat) (args : list value)
    (s : state) :
  get_prop (st_heap s) i "element" = VUndef ->
  apply E (S (S n)) (VFun (FLib LGetRawElement)) (VObj i) args s
  = (Thrown (VErr (TypeError "not a function")), s)
  /\ (hooks_of s h = HookReg [] [] ->
      apply E (S (S (S n)))
        (VFun (FHookable h (VFun (FLib LGetRawElement)))) (VObj i) args s
      = (Thrown (VErr (TypeError "not a function")), s)).
Proof.
  intros He.
  assert (apply E (S (S n)) (VFun (FLib LGetRawElement)) (VObj i) args s
          = (Thrown (VErr (TypeError "not a function")), s)) as H1.
  { rewrite apply_lib. cbn [lib_body exec member]. rewrite He. reflexivity. }
  split; [exact H1|].
  intros Hh. rewrite apply_hookable. unfold hookableFunction.
  rewrite hooks_loop_stop by (rewrite Hh; reflexivity).
  cbv beta iota. rewrite H1. reflexivity.
Qed.

Lemma two_instances_no_element :
  get_prop (st_heap two_instances) 5 "element" = VUndef
  /\ get_prop (st_heap two_instances) 5 "getRawElement"
     = VFun (FHookable 5 (VFun (FLib LGetRawElement)))
  /\ get_prop (st_heap two_instances) 5 "getElement"
     = VFun (FHookable 4 (VFun (FLib LGetElement))).
Proof. vm_compute. repeat split; reflexivity. Defined.

Lemma getRawElement_throws_witness :
  apply sample_env 3 (VFun (FHookable 5 (VFun (FLib LGetRawElement))))
    (VObj 5) [] two_instances
  = (Thrown (VErr (TypeError "not a function")), two_instances).
Proof.
  apply (proj2 (getRawElement_throws sample_env 0 5 5 [] two_instances
                  (proj1 two_instances_no_element))).
  vm_compute. reflexivity.
Defined.

(** The prototype of the exported class, whatever the client and the
    element wrapper are: [getRawElement] and [getElement] are there, as
    hookable functions, and no member is named [element]. *)
Lemma load_defines_no_element (E : env) :
  exists s,
    load E = (Normal (VFun (FClass 4 7)), s)
    /\ get_prop (st_heap s) 4 "element" = VUndef
    /\ get_prop (st_heap s) 4 "getRawElement"
       = VFun (FHookable 5 (VFun (FLib LGetRawElement)))
    /\ get_prop (st_heap s) 4 "getElement"
       = VFun (FHookable 4 (VFun (FLib LGetElement))).
Proof.
  eexists. split; [vm_compute; reflexivity|].
  repeat split; vm_compute; reflexivity.
Qed.

(** Every instance made by [new Class(el)] throws on [getRawElement()]. *)
Lemma getRawElement_throws_on_new_instance (E : env) (el : value) :
  fst (run E 8 (raw_element_prog el) initial_state)
  = Thrown (VErr (TypeError "not a function")).
Proof. vm_compute. reflexivity. Qed.

(** ** Chains of overrides *)

Lemma extend_unfold (E : env) (n : nat)
    (call : value -> value -> list value -> state -> result)
    (c : value) (p : nat) (args : list value) (s : state) :
  class_proto c = Some p ->
  extend E n call c args s
  = let fresh := (st_heap s ++ [Obj (Some p) false []])%list in
    let s3 := State fresh (st_hooks s) false in
    match extend_loop E n (VObj p) (arg 0 args)
            (VObj (length (st_heap s))) (forin_keys fresh (arg 0 args)) s3 with
    | (Normal _, s4) =>
        (Normal (VFun (FClass (length (st_heap s)) (length (st_hooks s4)))),
         snd (hookable (VFun FExtend) s4))
    | r => r
    end.
Proof.
  intros Hc. destruct c as [| | | | | |f|]; try discriminate Hc.
  destruct f; try discriminate Hc; cbn in Hc; inversion Hc; subst.
  - unfold extend. cbn [member fun_prop].
    change (String.eqb "prototype" "prototype") with true. cbv iota.
    unfold construct. cbn [alloc].
    cbn [with_initializing with_heap st_initializing st_heap st_hooks].
    destruct (extend_loop E n (VObj p) (arg 0 args) _ _ _)
      as [[x|e|] s4]; reflexivity.
  - unfold extend. cbn [member fun_prop].
    change (String.eqb "prototype" "prototype") with true. cbv iota.
    unfold construct. cbn [alloc]. unfold _Class.
    cbn [with_initializing with_heap st_initializing st_heap st_hooks negb].
    destruct (extend_loop E n (VObj p) (arg 0 args) _ _ _)
      as [[x|e|] s4]; reflexivity.
Qed.

Lemma extend_member_override (E : env) (fuel p lp : nat) (m : string)
    (s : state) :
  callable (get_prop (st_heap s) lp m) = true ->
  fnTest (value_text E (get_prop (st_heap s) lp m)) = true ->
  callable (get_prop (st_heap s) p m) = true ->
  extend_member E fuel (VObj p) (VObj lp) m s
  = (Normal (VFun (FSuperWrap (VObj p) m (get_prop (st_heap s) lp m))), s).
Proof.
  intros Hf Ht Hb.
  rewrite (extend_member_four_way E fuel (VObj p) lp m s
             (get_prop (st_heap s) p m) eq_refl).
  cbv zeta. now rewrite Hf, Ht, Hb.
Qed.

Lemma hooks_of_grown (s : state) (i : bool) (hs : list obj) (h : nat) :
  hooks_of s h = HookReg [] [] ->
  hooks_of (State hs (st_hooks s ++ [HookReg [] []]) i) h = HookReg [] [].
Proof.
  unfold hooks_of. cbn [st_hooks]. intros H.
  destruct (decide (h < length (st_hooks s))) as [Hlt|Hge].
  - now rewrite lookup_app_l.
  - rewrite lookup_app_r by lia.
    destruct (h - length (st_hooks s)) as [|d]; [reflexivity|].
    now destruct d.
Qed.

(** One extend with the override map [{ m: fn }], the map being the
    newest object of the heap: the new prototype is allocated next to it,
    linked to the base prototype [p], and its member [m] is the closure
    over [p], [m] and [fn]. *)
Lemma extend_override (E : env) (n : nat)
    (call : value -> value -> list value -> state -> result)
    (c : value) (p : nat) (m : string) (fn : value)
    (h0 : list obj) (hooks : list hookreg) (i : bool) :
  wf_heap h0 ->
  p < length h0 ->
  class_proto c = Some p ->
  callable fn = true ->
  fnTest (value_text E fn) = true ->
  callable (get_prop h0 p m) = true ->
  extend E n call c [VObj (length h0)]
    (State (h0 ++ [override_map m fn]) hooks i)
  = (Normal (VFun (FClass (S (length h0)) (length hooks))),
     State (h0 ++ [override_map m fn; override_proto m p fn])
           (hooks ++ [HookReg [] []]) false).
Proof.
  intros Hwf Hp Hc Hf Ht Hb.
  rewrite (extend_unfold E n call c p _ _ Hc).
  cbn [st_heap st_hooks arg nth]. cbv zeta.
  set (a := override_map m fn).
  set (fresh := ((h0 ++ [a]) ++ [Obj (Some p) false []])%list).
  assert (fresh !! length h0 = Some a) as Hlk.
  { unfold fresh. rewrite <- app_assoc. cbn [app].
    now apply list_lookup_middle. }
  assert (fresh !! S (length h0) = Some (Obj (Some p) false [])) as Hlk2.
  { unfold fresh. apply list_lookup_middle.
    rewrite length_app. simpl. lia. }
  assert (forin_keys fresh (VObj (length h0)) = [m]) as Hkeys.
  { unfold forin_keys. cbn [chain_keys]. rewrite Hlk. reflexivity. }
  assert (get_prop fresh (length h0) m = fn) as Hown.
  { apply get_prop_own. unfold own_prop. rewrite Hlk. cbn.
    now rewrite String.eqb_refl. }
  assert (get_prop fresh p m = get_prop h0 p m) as Hbase.
  { unfold fresh. rewrite <- app_assoc. now apply get_prop_app. }
  rewrite Hkeys. cbn [extend_loop].
  rewrite extend_member_override;
    cbn [st_heap]; rewrite ?Hown, ?Hbase; try assumption.
  replace (length (h0 ++ [a])) with (S (length h0))
    by (rewrite length_app; simpl; lia).
  cbn [assign st_heap]. unfold set_prop. rewrite Hlk2.
  cbn [o_proto o_array o_props alist_set with_heap st_heap st_hooks
       st_initializing hookable snd length].
  f_equal. f_equal.
  unfold fresh. replace (S (length h0)) with (length (h0 ++ [a]) + 0)
    by (rewrite length_app; simpl; lia).
  rewrite insert_app_r. unfold with_hooks, with_heap.
  cbn [st_heap st_hooks st_initializing insert list_insert].
  rewrite <- app_assoc. reflexivity.
Qed.

Lemma apply_extend (E : env) (n : nat) (this : value) (args : list value)
    (s : state) :
  apply E (S n) (VFun FExtend) this args s
  = extend E n (apply E n) this args s.
Proof. reflexivity. Qed.

Lemma plain_class_proto (s : state) (c : value) (p : nat) :
  plain_class s c p -> class_proto c = Some p.
Proof. intros [->|[h [-> _]]]; reflexivity. Qed.

(** One step of a chain. *)
Lemma extend_with_override (E : env) (n : nat) (c : value) (p : nat)
    (m : string) (fn : value) (s : state) :
  wf_heap (st_heap s) ->
  p < length (st_heap s) ->
  plain_class s c p ->
  delegating E fn ->
  callable (get_prop (st_heap s) p m) = true ->
  run E (S (S n)) (extend_with c [(m, fn)] (fun c' => Ret c')) s
  = (Normal (VFun (FClass (S (length (st_heap s))) (length (st_hooks s)))),
     State (st_heap s ++ [override_map m fn; override_proto m p fn])
           (st_hooks s ++ [HookReg [] []]) false).
Proof.
  intros Hwf Hp Hc [Hf Ht] Hb.
  pose proof (plain_class_proto s c p Hc) as Hcp.
  unfold run, extend_with. cbn [exec alloc]. unfold with_heap.
  fold (override_map m fn).
  destruct Hc as [->|[h [-> Hh]]].
  - change (member _ (VFun (FRootClass p)) "extend") with
      (@inl value jserror (VFun FExtend)).
    cbn [exec]. rewrite apply_extend.
    rewrite (extend_override E (S n) _ _ p m fn) by assumption.
    reflexivity.
  - change (member _ (VFun (FClass p h)) "extend") with
      (@inl value jserror (VFun (FHookable h (VFun FExtend)))).
    cbn [exec]. rewrite apply_hookable. unfold hookableFunction.
    rewrite hooks_loop_stop
      by (unfold hooks_of in *; cbn [st_hooks]; rewrite Hh; reflexivity).
    cbv beta iota. rewrite apply_extend.
    rewrite (extend_override E n _ _ p m fn) by assumption.
    rewrite hooks_loop_stop
      by (rewrite (hooks_of_grown s false _ h Hh); reflexivity).
    reflexivity.
Qed.

Lemma level_proto_shift (base j : nat) :
  level_proto (base + 2) j = level_proto base (S j).
Proof. unfold level_proto. lia. Qed.

Lemma parent_proto_shift (p base k : nat) :
  parent_proto (S base) (base + 2) k = parent_proto p base (S k).
Proof.
  destruct k as [|j]; cbn [parent_proto].
  - unfold level_proto. lia.
  - apply level_proto_shift.
Qed.

(** The heap a chain of overrides builds: every level holds, under [m],
    the closure over the prototype of the level just below it. *)
Lemma extend_chain_levels (E : env) (n : nat) (m : string)
    (fns : list value) :
  Forall (delegating E) fns ->
  forall (s : state) (c : value) (p : nat),
    wf_heap (st_heap s) ->
    p < length (st_heap s) ->
    plain_class s c p ->
    callable (get_prop (st_heap s) p m) = true ->
    exists c' s' ext,
      extend_chain E (S (S n)) m c fns s = (Normal c', s')
      /\ st_heap s' = (st_heap s ++ ext)%list
      /\ wf_heap (st_heap s')
      /\ class_proto c'
         = Some (parent_proto p (length (st_heap s)) (length fns))
      /\ forall k fn,
           fns !! k = Some fn ->
           own_prop (st_heap s') (level_proto (length (st_heap s)) k) m
           = Some (VFun (FSuperWrap
                           (VObj (parent_proto p (length (st_heap s)) k))
                           m fn)).
Proof.
  induction 1 as [|fn rest Hfn Hrest IH]; intros s c p Hwf Hp Hc Hb.
  - exists c, s, []. rewrite app_nil_r.
    repeat split; try assumption; try reflexivity.
    + now apply (plain_class_proto s).
    + intros k fn Hk. destruct k; discriminate Hk.
  - cbn [extend_chain].
    rewrite (extend_with_override E n c p m fn s) by assumption.
    set (base := length (st_heap s)).
    set (a := override_map m fn). set (b := override_proto m p fn).
    set (s1 := State (st_heap s ++ [a; b]) (st_hooks s ++ [HookReg [] []])
                     false).
    assert (length (st_heap s1) = base + 2) as Hlen1
      by (cbn; rewrite length_app; cbn; fold base; lia).
    assert (st_heap s1 !! S base = Some b) as Hlkb.
    { cbn [s1 st_heap].
      change (st_heap s ++ [a; b])%list with (st_heap s ++ [a] ++ [b])%list.
      rewrite app_assoc. apply list_lookup_middle.
      rewrite length_app. cbn. fold base. lia. }
    assert (wf_heap (st_heap s1)) as Hwf1.
    { cbn [s1 st_heap].
      change (st_heap s ++ [a; b])%list with (st_heap s ++ [a] ++ [b])%list.
      rewrite app_assoc. apply wf_heap_app; [apply wf_heap_app|].
      - exact Hwf.
      - intros q Hq. discriminate Hq.
      - intros q Hq. cbn in Hq. inversion Hq; subst q.
        rewrite length_app. lia. }
    assert (own_prop (st_heap s1) (S base) m
            = Some (VFun (FSuperWrap (VObj p) m fn))) as Hown1.
    { unfold own_prop. rewrite Hlkb. cbn. now rewrite String.eqb_refl. }
    destruct (IH s1 (VFun (FClass (S base) (length (st_hooks s)))) (S base))
      as (c' & s' & ext & Hrun & Hheap & Hwf' & Hcls & Hlev).
    + exact Hwf1.
    + lia.
    + right. eexists. split; [reflexivity|].
      unfold hooks_of. cbn [s1 st_hooks].
      now rewrite list_lookup_middle.
    + now rewrite (get_prop_own _ _ _ _ Hown1).
    + exists c', s', ([a; b] ++ ext)%list.
      rewrite Hlen1 in Hcls, Hlev.
      split; [exact Hrun|]. split; [|split; [exact Hwf'|split]].
      * rewrite Hheap. cbn [s1 st_heap]. now rewrite <- app_assoc.
      * rewrite Hcls. cbn [length]. now rewrite (parent_proto_shift p).
      * intros k fn' Hk. destruct k as [|j].
        -- cbn in Hk. inversion Hk; subst fn'.
           replace (level_proto base 0) with (S base)
             by (unfold level_proto; lia).
           rewrite Hheap. rewrite own_prop_app by lia. exact Hown1.
        -- cbn in Hk. specialize (Hlev j fn' Hk).
           now rewrite level_proto_shift, (parent_proto_shift p) in Hlev.
Qed.

(** C3: in a chain of successive extend calls that each override [m] with
    a function mentioning [_super] (of any length, so of three or more
    levels too), started from a class whose prototype [p] has a callable
    [m]: the chain builds the leaf class, and for every level [k]
    - the member [m] of the level's prototype is the closure over the
      prototype of the level just below ([p] for the first level);
    - what that prototype holds under [m] is the implementation of the
      level just below: the root's for the first level, the closure of
      level [k - 1] otherwise, never one further down;
    - a call of the level's member, on any receiver and arguments, runs
      the level's override with [_super] set to exactly that
      implementation. *)
Theorem super_chain_one_level_at_a_time (E : env) (n : nat) (m : string)
    (fns : list value) (s : state) (c : value) (p : nat) :
  Forall (delegating E) fns ->
  wf_heap (st_heap s) ->
  p < length (st_heap s) ->
  plain_class s c p ->
  callable (get_prop (st_heap s) p m) = true ->
  let base := length (st_heap s) in
  exists c' s',
    extend_chain E (S (S n)) m c fns s = (Normal c', s')
    /\ class_proto c' = Some (parent_proto p base (length fns))
    /\ forall k fn,
         fns !! k = Some fn ->
         let qk := parent_proto p base k in
         let parent_impl :=
           match k with
           | O => get_prop (st_heap s) p m
           | S j => VFun (FSuperWrap (VObj (parent_proto p base j)) m
                            (nth j fns VUndef))
           end in
         get_prop (st_heap s') (level_proto base k) m
         = VFun (FSuperWrap (VObj qk) m fn)
         /\ get_prop (st_heap s') qk m = parent_impl
         /\ forall fuel r args,
              apply E (S fuel) (VFun (FSuperWrap (VObj qk) m fn)) (VObj r)
                args s'
              = match apply E fuel fn (VObj r) args
                        (with_heap s'
                           (set_prop (st_heap s') r "_super" parent_impl)) with
                | (Normal v, s2) =>
                    (Normal v,
                     with_heap s2
                       (set_prop (st_heap s2) r "_super"
                          (get_prop (st_heap s') r "_super")))
                | x => x
                end.
Proof.
  intros Hfns Hwf Hp Hc Hb base.
  destruct (extend_chain_levels E n m fns Hfns s c p Hwf Hp Hc Hb)
    as (c' & s' & ext & Hrun & Hheap & Hwf' & Hcls & Hlev).
  fold base in Hcls, Hlev.
  exists c', s'. split; [exact Hrun|]. split; [exact Hcls|].
  intros k fn Hk qk parent_impl.
  assert (get_prop (st_heap s') qk m = parent_impl) as Hparent.
  { unfold qk, parent_impl. destruct k as [|j]; cbn [parent_proto].
    - rewrite Hheap. now apply get_prop_app.
    - assert (j < length fns) as Hj
        by (apply lookup_lt_Some in Hk; lia).
      destruct (lookup_lt_is_Some_2 fns j Hj) as [fj Hfj].
      rewrite (nth_lookup_Some _ _ _ _ Hfj).
      apply get_prop_own. now apply Hlev. }
  split; [apply get_prop_own; now apply Hlev|]. split; [exact Hparent|].
  intros fuel r args. rewrite apply_superwrap. unfold superwrap_call.
  cbn [member assign]. rewrite Hparent.
  destruct (apply E fuel fn (VObj r) args _) as [[v|e|] s2]; reflexivity.
Qed.

Lemma chain_state_wf : wf_heap (st_heap chain_state).
Proof.
  intros l o p Hl Hp. destruct l as [|l]; cbn in Hl.
  - inversion Hl; subst o. discriminate Hp.
  - destruct l; discriminate Hl.
Defined.

Lemma chain_overrides_delegating : Forall (delegating sample_env) chain_overrides.
Proof.
  repeat constructor; vm_compute; reflexivity.
Defined.

Lemma super_chain_one_level_at_a_time_witness :
  exists c' s',
    extend_chain sample_env 2 "m" (VFun (FRootClass 0)) chain_overrides
      chain_state = (Normal c', s')
    /\ class_proto c' = Some 6.
Proof.
  destruct (super_chain_one_level_at_a_time sample_env 0 "m" chain_overrides
              chain_state (VFun (FRootClass 0)) 0
              chain_overrides_delegating chain_state_wf
              ltac:(cbn; lia) (or_introl eq_refl) eq_refl)
    as (c' & s' & Hrun & Hcls & _).
  exists c', s'. split; [exact Hrun|exact Hcls].
Defined.

(** A call on an instance of the leaf of the three-level chain visits
    level 3, level 2, level 1 and the root, each once and in that order:
    every function appends its level to [trace]. *)
Example super_chain_trace :
  match extend_chain sample_env 2 "m" (VFun (FRootClass 0)) chain_overrides
          chain_state with
  | (Normal c, s) =>
      fst (run sample_env 10
             (New c [] (fun r =>
              GetP r "m" (fun f =>
              Call f r [VNum 7] (fun v =>
              GetP r "trace" (fun t => Ret t))))) s)
  | (o, _) => o
  end = Normal (VNum 3210).
Proof. vm_compute. reflexivity. Qed.

(** * Further properties of the source *)

(** ** The hookable wrapper beyond the ordered run *)

(** X1: a hookable function on which no hook is registered is transparent:
    its invocation has the outcome and the final state of the wrapped
    function's, whether that returns, throws or does not end. *)
Theorem hookable_without_hooks_is_transparent (E : env) (n h : nat)
    (fn this : value) (args : list value) (s s2 : state) (o : outcome) :
  hooks_of s h = HookReg [] [] ->
  apply E n fn this args s = (o, s2) ->
  (forall v, o = Normal v -> after (hooks_of s2 h) = []) ->
  apply E (S n) (VFun (FHookable h fn)) this args s = (o, s2).
Proof.
  intros Hh Hf Hafter. rewrite apply_hookable. unfold hookableFunction.
  rewrite hooks_loop_stop by (rewrite Hh; reflexivity).
  cbv beta iota. rewrite Hf. destruct o as [v|e|]; try reflexivity.
  rewrite hooks_loop_stop by (rewrite (Hafter v eq_refl); reflexivity).
  reflexivity.
Qed.

Lemma hookable_without_hooks_is_transparent_witness :
  apply sample_env 2 (VFun (FHookable 0 (VFun (FUser 0)))) (VObj 0) [VNum 7]
    (hooks_state [] [])
  = (Normal (VNum 7), hooks_state [] []).
Proof.
  apply (hookable_without_hooks_is_transparent sample_env 1 0 (VFun (FUser 0))
           (VObj 0) [VNum 7] (hooks_state [] []) (hooks_state [] [])
           (Normal (VNum 7)) eq_refl eq_refl).
  intros v _. reflexivity.
Defined.

Lemma hookable_before_hook_throw_step (E : env) (n h : nat)
    (fn this a e : value) (rest : list value) (args : list value)
    (s s1 : state) :
  before (hooks_of s h) = a :: rest ->
  truthy a = true ->
  apply E n a this args s = (Thrown e, s1) ->
  apply E (S n) (VFun (FHookable h fn)) this args s = (Thrown e, s1).
Proof.
  intros Hb Ht Ha. rewrite apply_hookable. unfold hookableFunction.
  cbn [hooks_loop]. rewrite Hb. cbn [nth]. rewrite Ht, Ha. reflexivity.
Qed.

(** X2: when the first before-hook throws (a truthy entry that is not
    callable throws a TypeError), the invocation throws the same error
    from the state the hook left: neither the later hooks nor the wrapped
    function run. *)
Theorem hookable_before_hook_throw_skips_function (E : env) (n h : nat)
    (fn this a e : value) (rest : list value) (args : list value)
    (s s1 : state) :
  before (hooks_of s h) = a :: rest ->
  truthy a = true ->
  apply E n a this args s = (Thrown e, s1) ->
  apply E (S n) (VFun (FHookable h fn)) this args s = (Thrown e, s1).
Proof.
  intros Hb Ht Ha. now apply (hookable_before_hook_throw_step E n h fn this a e rest).
Qed.

Lemma hookable_before_hook_throw_skips_function_witness :
  apply sample_env 2 (VFun (FHookable 0 (VFun (FUser 0)))) (VObj 0) [VNum 7]
    (hooks_state [VFun (FUser 1)] [])
  = (Thrown (VNum 7), hooks_state [VFun (FUser 1)] []).
Proof.
  apply (hookable_before_hook_throw_skips_function sample_env 1 0
           (VFun (FUser 0)) (VObj 0) (VFun (FUser 1)) (VNum 7) []
           [VNum 7] (hooks_state [VFun (FUser 1)] [])
           (hooks_state [VFun (FUser 1)] []) eq_refl eq_refl eq_refl).
Defined.

(** X3: when the wrapped function has returned and the first after-hook
    throws, the invocation throws: the result of the wrapped function is
    lost, what it did to the state is kept. *)
Theorem hookable_after_hook_throw_loses_result (E : env) (n h : nat)
    (fn this c e v : value) (rest : list value) (args : list value)
    (s s2 s3 : state) :
  before (hooks_of s h) = [] ->
  apply E n fn this args s = (Normal v, s2) ->
  after (hooks_of s2 h) = c :: rest ->
  truthy c = true ->
  apply E n c this args s2 = (Thrown e, s3) ->
  apply E (S n) (VFun (FHookable h fn)) this args s = (Thrown e, s3).
Proof.
  intros Hb Hf Ha Ht Hc. rewrite apply_hookable. unfold hookableFunction.
  rewrite hooks_loop_stop by (rewrite Hb; reflexivity).
  cbv beta iota. rewrite Hf. cbn [hooks_loop]. rewrite Ha. cbn [nth].
  rewrite Ht, Hc. reflexivity.
Qed.

Lemma hookable_after_hook_throw_loses_result_witness :
  apply sample_env 2 (VFun (FHookable 0 (VFun (FUser 0)))) (VObj 0) [VNum 7]
    (hooks_state [] [VFun (FUser 1)])
  = (Thrown (VNum 7), hooks_state [] [VFun (FUser 1)]).
Proof.
  apply (hookable_after_hook_throw_loses_result sample_env 1 0
           (VFun (FUser 0)) (VObj 0) (VFun (FUser 1)) (VNum 7) (VNum 7) []
           [VNum 7] (hooks_state [] [VFun (FUser 1)])
           (hooks_state [] [VFun (FUser 1)]) (hooks_state [] [VFun (FUser 1)])
           eq_refl eq_refl eq_refl eq_refl eq_refl).
Defined.

(** X4: the hook loops stop at the first entry that is not truthy (an
    [undefined] registered by [addHook], for one): the before-hooks
    registered after it never run, and the invocation is the one of the
    wrapped function. *)
Theorem hookable_falsy_hook_hides_later_hooks (E : env) (n h : nat)
    (fn this x : value) (rest : list value) (args : list value)
    (s s2 : state) (o : outcome) :
  before (hooks_of s h) = x :: rest ->
  truthy x = false ->
  apply E n fn this args s = (o, s2) ->
  (forall v, o = Normal v -> after (hooks_of s2 h) = []) ->
  apply E (S n) (VFun (FHookable h fn)) this args s = (o, s2).
Proof.
  intros Hb Ht Hf Hafter. rewrite apply_hookable. unfold hookableFunction.
  rewrite hooks_loop_stop by (rewrite Hb; exact Ht).
  cbv beta iota. rewrite Hf. destruct o as [v|e|]; try reflexivity.
  rewrite hooks_loop_stop by (rewrite (Hafter v eq_refl); reflexivity).
  reflexivity.
Qed.

Lemma hookable_falsy_hook_hides_later_hooks_witness :
  apply sample_env 2 (VFun (FHookable 0 (VFun (FUser 0)))) (VObj 0) [VNum 7]
    (hooks_state [VUndef; VFun (FUser 1)] [])
  = (Normal (VNum 7), hooks_state [VUndef; VFun (FUser 1)] []).
Proof.
  apply (hookable_falsy_hook_hides_later_hooks sample_env 1 0 (VFun (FUser 0))
           (VObj 0) VUndef [VFun (FUser 1)] [VNum 7]
           (hooks_state [VUndef; VFun (FUser 1)] [])
           (hooks_state [VUndef; VFun (FUser 1)] [])
           (Normal (VNum 7)) eq_refl eq_refl eq_refl).
  intros v _. reflexivity.
Defined.

Lemma apply_non_function (E : env) (n : nat) (x this : value)
    (args : list value) (s : state) :
  callable x = false ->
  apply E (S n) x this args s = type_error "not a function" s.
Proof.
  intros Hx. destruct x; try reflexivity. discriminate Hx.
Qed.



(** X6: the hook loops read the record at every step, so a hook that an
    earlier hook registers during an invocation runs in that same
    invocation: with the before-hooks [a], where [a] registers [b], one
    invocation runs [a], [b] and then the wrapped function. *)
Theorem hookable_runs_hook_registered_during_call (E : env) (n h : nat)
    (fn this a b va vb v : value) (args : list value)
    (s s1 s2 s3 : state) :
  2 <= n ->
  hooks_of s h = HookReg [a] [] ->
  apply E n a this args s = (Normal va, s1) ->
  hooks_of s1 h = HookReg [a; b] [] ->
  apply E n b this args s1 = (Normal vb, s2) ->
  hooks_of s2 h = HookReg [a; b] [] ->
  apply E n fn this args s2 = (Normal v, s3) ->
  after (hooks_of s3 h) = [] ->
  apply E (S n) (VFun (FHookable h fn)) this args s = (Normal v, s3).
Proof.
  intros Hn Hreg Ha R1 Hb R2 Hf R3.
  pose proof (apply_normal_truthy _ _ _ _ _ _ _ _ Ha) as Ta.
  pose proof (apply_normal_truthy _ _ _ _ _ _ _ _ Hb) as Tb.
  rewrite apply_hookable. unfold hookableFunction.
  destruct n as [|[|k]]; [lia|lia|].
  rewrite (hooks_loop_step _ before h this args _ 0 s s1 va)
    by (rewrite Hreg; split; assumption).
  rewrite (hooks_loop_step _ before h this args _ 1 s1 s2 vb)
    by (rewrite R1; split; assumption).
  rewrite hooks_loop_stop by (rewrite R2; reflexivity).
  cbv beta iota. rewrite Hf.
  rewrite hooks_loop_stop by (rewrite R3; reflexivity).
  reflexivity.
Qed.

Lemma hookable_runs_hook_registered_during_call_witness :
  apply sample_env 3 (VFun (FHookable 0 (VFun (FUser 0)))) (VObj 0)
    [VFun (FHookable 0 (VFun (FUser 0)))]
    (hooks_state [VFun (FUser 3)] [])
  = (Normal (VFun (FHookable 0 (VFun (FUser 0)))),
     hooks_state [VFun (FUser 3); VFun (FUser 0)] []).
Proof.
  apply (hookable_runs_hook_registered_during_call sample_env 2 0
           (VFun (FUser 0)) (VObj 0) (VFun (FUser 3)) (VFun (FUser 0))
           VUndef (VFun (FHookable 0 (VFun (FUser 0))))
           (VFun (FHookable 0 (VFun (FUser 0))))
           [VFun (FHookable 0 (VFun (FUser 0)))]
           (hooks_state [VFun (FUser 3)] [])
           (hooks_state [VFun (FUser 3); VFun (FUser 0)] [])
           (hooks_state [VFun (FUser 3); VFun (FUser 0)] [])
           (hooks_state [VFun (FUser 3); VFun (FUser 0)] []));
    solve [lia | reflexivity].
Defined.

(** ** Options and element of an instance, beyond set-then-get *)

Lemma set_prop_lookup_other_key (h : list obj) (o : nat) (k k' : string)
    (v : value) (l : nat) :
  k' <> k ->
  match set_prop h o k v !! l, h !! l with
  | Some a, Some b =>
      o_proto a = o_proto b
      /\ alist_get k' (o_props a) = alist_get k' (o_props b)
  | None, None => True
  | _, _ => False
  end.
Proof.
  intros Hne. unfold set_prop. destruct (h !! o) as [ob|] eqn:Ho.
  - destruct (decide (l = o)) as [->|Hl].
    + rewrite list_lookup_insert_eq by (apply lookup_lt_Some in Ho; exact Ho).
      rewrite Ho. cbn [o_props o_proto].
      split; [reflexivity|now apply alist_get_set_ne].
    + rewrite list_lookup_insert_ne by congruence.
      destruct (h !! l); [split; reflexivity|exact I].
  - destruct (h !! l); [split; reflexivity|exact I].
Qed.

Lemma chain_get_set_other_key (n : nat) (h : list obj) (o : nat)
    (k k' : string) (v : value) :
  k' <> k ->
  forall l, chain_get n (set_prop h o k v) l k' = chain_get n h l k'.
Proof.
  intros Hne. induction n as [|n IH]; intros l; [reflexivity|].
  cbn [chain_get].
  pose proof (set_prop_lookup_other_key h o k k' v l Hne) as Hl.
  destruct (set_prop h o k v !! l) as [a|], (h !! l) as [b|];
    try contradiction; [|reflexivity].
  destruct Hl as [Hp Hg]. rewrite Hg, Hp.
  destruct (alist_get k' (o_props b)); [reflexivity|].
  destruct (o_proto b); [apply IH|reflexivity].
Qed.

Lemma get_prop_set_other_key (h : list obj) (o l : nat) (k k' : string)
    (v : value) :
  k' <> k -> get_prop (set_prop h o k v) l k' = get_prop h l k'.
Proof.
  intros Hne. unfold get_prop. rewrite set_prop_length.
  now rewrite chain_get_set_other_key.
Qed.

(** What [get] returns, from the two lookups it makes. *)
Lemma lib_get_value (E : env) (n i o : nat) (name : string)
    (fallback : value) (s : state) :
  get_prop (st_heap s) i "options" = VObj o ->
  apply E (S n) (VFun (FLib LGet)) (VObj i) [VStr name; fallback] s
  = (Normal (match get_prop (st_heap s) o name with
             | VUndef => fallback
             | v => v
             end), s).
Proof.
  intros Ho. destruct (get_prop (st_heap s) o name) eqn:Hv;
    first [ now apply (lib_get_fallback E n i o)
          | apply (lib_get_defined E n i o); [exact Ho|exact Hv|discriminate] ].
Qed.





Lemma alist_set_set (k : string) (v1 v2 : value) (m : list (string * value)) :
  alist_set k v2 (alist_set k v1 m) = alist_set k v2 m.
Proof.
  induction m as [|[k' v'] m IH]; cbn [alist_set].
  - now rewrite String.eqb_refl.
  - destruct (String.eqb k k') eqn:Hk; cbn [alist_set].
    + now rewrite String.eqb_refl.
    + now rewrite Hk, IH.
Qed.

Lemma set_prop_set_prop (h : list obj) (o : nat) (k : string)
    (v1 v2 : value) :
  set_prop (set_prop h o k v1) o k v2 = set_prop h o k v2.
Proof.
  unfold set_prop. destruct (h !! o) as [ob|] eqn:Ho.
  - rewrite list_lookup_insert_eq by (apply lookup_lt_Some in Ho; exact Ho).
    cbn [o_proto o_array o_props]. rewrite alist_set_set.
    apply list_insert_insert_eq.
  - now rewrite Ho.
Qed.




(** X11: on a receiver whose [options] is undefined or null, [set] and
    [get] throw a TypeError and leave the state as it is. *)
Theorem set_get_without_options_throw (E : env) (n i : nat)
    (name : string) (value fallback : value) (s : state) :
  get_prop (st_heap s) i "options" = VUndef
  \/ get_prop (st_heap s) i "options" = VNull ->
  apply E (S n) (VFun (FLib LSet)) (VObj i) [VStr name; value] s
  = (Thrown (VErr (TypeError "cannot set a member of undefined or null")), s)
  /\ apply E (S n) (VFun (FLib LGet)) (VObj i) [VStr name; fallback] s
     = (Thrown (VErr (TypeError "cannot read a member of undefined or null")),
        s).
Proof.
  intros Ho. rewrite !apply_lib. cbn [lib_body exec member arg nth to_key].
  destruct Ho as [-> | ->]; split; reflexivity.
Qed.

Lemma set_get_without_options_throw_witness :
  apply sample_env 1 (VFun (FLib LSet)) (VObj 1) [VStr "color"; VStr "red"]
    demo_state
  = (Thrown (VErr (TypeError "cannot set a member of undefined or null")),
     demo_state).
Proof.
  apply (set_get_without_options_throw sample_env 0 1 "color" (VStr "red")
           VUndef demo_state (or_introl eq_refl)).
Defined.

(** X12: [init(element)], called without options (or with falsy ones),
    stores the wrapper [jQuery(element)] in the receiver's own [$element],
    whatever it held, and touches nothing else; [getElement()] then
    returns that wrapper. *)
Theorem init_then_getElement (E : env) (n i : nat) (el opts : value)
    (s : state) :
  i < length (st_heap s) ->
  truthy opts = false ->
  let w := external E "jQuery" [el] in
  let s1 := with_heap s (set_prop (st_heap s) i "$element" w) in
  apply E (S n) (VFun (FLib LInit)) (VObj i) [el; opts] s
  = (Normal VUndef, s1)
  /\ apply E (S n) (VFun (FLib LGetElement)) (VObj i) [] s1 = (Normal w, s1).
Proof.
  intros Hi Ht w s1. rewrite !apply_lib. split.
  - cbn [lib_body exec arg nth assign]. rewrite Ht. reflexivity.
  - cbn [lib_body exec member]. unfold s1. cbn [with_heap st_heap].
    now rewrite get_prop_set_eq.
Qed.

Lemma init_then_getElement_witness :
  apply sample_env 1 (VFun (FLib LGetElement)) (VObj 1) []
    (with_heap demo_state
       (set_prop (st_heap demo_state) 1 "$element" (VStr "element")))
  = (Normal (VStr "element"),
     with_heap demo_state
       (set_prop (st_heap demo_state) 1 "$element" (VStr "element"))).
Proof.
  apply (init_then_getElement sample_env 0 1 (VStr "#a") VUndef demo_state
           ltac:(cbn; lia) eq_refl).
Defined.

(** ** What extend builds *)

Lemma chain_keys_fuel (h : list obj) :
  wf_heap h ->
  forall n n' l, l < n -> l < n' -> chain_keys n h l = chain_keys n' h l.
Proof.
  intros Hwf. induction n as [|n IH]; intros n' l Hn Hn'; [lia|].
  destruct n' as [|n']; [lia|]. cbn [chain_keys].
  destruct (h !! l) as [o|] eqn:Ho; [|reflexivity].
  destruct (o_proto o) as [p|] eqn:Hp; [|reflexivity].
  pose proof (Hwf l o p Ho Hp). f_equal. apply IH; lia.
Qed.

Lemma chain_keys_app (h ext : list obj) :
  wf_heap h ->
  forall n l, l < length h -> chain_keys n (h ++ ext) l = chain_keys n h l.
Proof.
  intros Hwf. induction n as [|n IH]; intros l Hl; [reflexivity|].
  cbn [chain_keys]. rewrite lookup_app_l by exact Hl.
  destruct (h !! l) as [o|] eqn:Ho; [|reflexivity].
  destruct (o_proto o) as [p|] eqn:Hp; [|reflexivity].
  pose proof (Hwf l o p Ho Hp). f_equal. apply IH. lia.
Qed.

Lemma forin_keys_app (h ext : list obj) (l : nat) :
  wf_heap h -> l < length h ->
  forin_keys (h ++ ext) (VObj l) = forin_keys h (VObj l).
Proof.
  intros Hwf Hl. unfold forin_keys. f_equal.
  rewrite chain_keys_app by assumption.
  apply chain_keys_fuel; [exact Hwf| |lia]. rewrite length_app. lia.
Qed.

(** Assignment to the newest object of the heap. *)
Lemma set_prop_last (h : list obj) (o : obj) (k : string) (v : value) :
  set_prop (h ++ [o]) (length h) k v
  = (h ++ [Obj (o_proto o) (o_array o) (alist_set k v (o_props o))])%list.
Proof.
  unfold set_prop. rewrite list_lookup_middle by reflexivity.
  replace (length h) with (length h + 0) at 1 by lia.
  now rewrite insert_app_r.
Qed.

(** A member of the newest object: its own, or else what its prototype
    gives. *)
Lemma get_prop_last (h : list obj) (p : nat) (arr : bool)
    (ps : list (string * value)) (k : string) :
  wf_heap h -> p < length h ->
  get_prop (h ++ [Obj (Some p) arr ps]) (length h) k
  = match alist_get k ps with
    | Some v => v
    | None => get_prop h p k
    end.
Proof.
  intros Hwf Hp. unfold get_prop at 1. cbn [chain_get].
  rewrite list_lookup_middle by reflexivity. cbn [o_props o_proto].
  destruct (alist_get k ps); [reflexivity|].
  rewrite chain_get_app by assumption.
  unfold get_prop. f_equal.
  apply chain_get_fuel; [exact Hwf| |lia]. rewrite length_app. cbn. lia.
Qed.

Section MergeFree.

Context (E : env) (n : nat).
Context (h : list obj) (hs : list hookreg) (p lp : nat).
Hypothesis Hwf : wf_heap h.
Hypothesis Hp : p < length h.
Hypothesis Hlp : lp < length h.
Hypothesis Hfree : merge_free h lp.

(** One name of the loop, on a heap that has the new prototype as its
    newest object. *)
Lemma extend_member_merge_free (name : string) (o : obj)
    (hooks : list hookreg) (i : bool) :
  let s := State (h ++ [o]) hooks i in
  let pv := get_prop h lp name in
  extend_member E n (VObj p) (VObj lp) name s
  = if callable pv then
      if callable (get_prop h p name) && fnTest (value_text E pv)
      then (Normal (VFun (FSuperWrap (VObj p) name pv)), s)
      else (Normal (VFun (FHookable (length hooks) pv)),
            State (h ++ [o]) (hooks ++ [HookReg [] []]) i)
    else (Normal pv, s).
Proof.
  intros s pv.
  rewrite (extend_member_four_way E n (VObj p) lp name s
             (get_prop (h ++ [o]) p name) eq_refl).
  subst pv. cbv zeta. cbn [st_heap s].
  rewrite !get_prop_app by assumption.
  rewrite (Hfree name). cbn [andb].
  destruct (callable (get_prop h lp name)); cbn [andb]; [|reflexivity].
  destruct (callable (get_prop h p name)
            && fnTest (value_text E (get_prop h lp name))); reflexivity.
Qed.

Lemma all_empty_snoc (ex : list hookreg) :
  all_empty ex -> all_empty (ex ++ [HookReg [] []]).
Proof.
  intros H. apply Forall_app. split; [exact H|]. now constructor.
Qed.

(** One turn of the loop. *)
Lemma extend_loop_turn_merge_free (i : bool) (name : string)
    (rest : list string) (ps : list (string * value)) (ex : list hookreg) :
  all_empty ex ->
  exists v ex1,
    all_empty ex1
    /\ built_member E h p lp (length hs) name v
    /\ extend_loop E n (VObj p) (VObj lp) (VObj (length h)) (name :: rest)
         (State (h ++ [Obj (Some p) false ps]) (hs ++ ex) i)
       = extend_loop E n (VObj p) (VObj lp) (VObj (length h)) rest
           (State (h ++ [Obj (Some p) false (alist_set name v ps)])
                  (hs ++ ex1) i).
Proof.
  intros Hex. cbn [extend_loop]. rewrite extend_member_merge_free.
  cbv zeta. unfold built_member.
  destruct (callable (get_prop h lp name)).
  - destruct (callable (get_prop h p name)
              && fnTest (value_text E (get_prop h lp name))).
    + exists (VFun (FSuperWrap (VObj p) name (get_prop h lp name))), ex.
      split; [exact Hex|]. split; [reflexivity|].
      cbn [assign st_heap with_heap st_hooks st_initializing].
      now rewrite set_prop_last.
    + exists (VFun (FHookable (length (hs ++ ex)) (get_prop h lp name))),
        (ex ++ [HookReg [] []])%list.
      split; [now apply all_empty_snoc|]. split.
      * eexists. split; [|reflexivity]. rewrite length_app. lia.
      * cbn [assign st_heap with_heap st_hooks st_initializing].
        now rewrite set_prop_last, app_assoc.
  - exists (get_prop h lp name), ex.
    split; [exact Hex|]. split; [reflexivity|].
    cbn [assign st_heap with_heap st_hooks st_initializing].
    now rewrite set_prop_last.
Qed.

(** The loop of extend over [names]: the old heap and the old hook
    records stay, the new prototype gets a member for every name, built as
    extend classifies it, and keeps its other members. *)
Lemma extend_loop_merge_free (i : bool) (names : list string) :
  forall (ps : list (string * value)) (ex : list hookreg),
    all_empty ex ->
    exists ps' ex',
      extend_loop E n (VObj p) (VObj lp) (VObj (length h)) names
        (State (h ++ [Obj (Some p) false ps]) (hs ++ ex) i)
      = (Normal VUndef,
         State (h ++ [Obj (Some p) false ps']) (hs ++ ex') i)
      /\ all_empty ex'
      /\ forall k,
           (In k names ->
            exists v, alist_get k ps' = Some v
                      /\ built_member E h p lp (length hs) k v)
           /\ (~ In k names -> alist_get k ps' = alist_get k ps).
Proof.
  induction names as [|name rest IH]; intros ps ex Hex.
  - exists ps, ex. split; [reflexivity|]. split; [exact Hex|].
    intros k. split; [intros []|reflexivity].
  - destruct (extend_loop_turn_merge_free i name rest ps ex Hex)
      as (v & ex1 & Hex1 & Hbuilt & Hturn).
    rewrite Hturn.
    destruct (IH (alist_set name v ps) ex1 Hex1)
      as (ps' & ex' & Hrun & Hex' & Hk).
    exists ps', ex'. split; [exact Hrun|]. split; [exact Hex'|].
    intros k. destruct (Hk k) as [Hin Hout]. split.
    + intros [<-|Hr].
      * destruct (in_dec string_dec name rest) as [Hr|Hr]; [now apply Hin|].
        exists v. split; [|exact Hbuilt].
        rewrite (Hout Hr). apply alist_get_set_eq.
      * now apply Hin.
    + intros Hnot. rewrite Hout by (intros Hr; apply Hnot; now right).
      apply alist_get_set_ne. intros ->. apply Hnot. now left.
Qed.

End MergeFree.

(** extend on an override map without members of [typeof] "object". *)
Lemma extend_merge_free (E : env) (n : nat)
    (call : value -> value -> list value -> state -> result)
    (c : value) (p lp : nat) (s : state) :
  class_proto c = Some p ->
  wf_heap (st_heap s) ->
  p < length (st_heap s) ->
  lp < length (st_heap s) ->
  merge_free (st_heap s) lp ->
  exists ps ex,
    extend E n call c [VObj lp] s
    = (Normal (VFun (FClass (length (st_heap s))
                       (length (st_hooks s ++ ex)))),
       State (st_heap s ++ [Obj (Some p) false ps])
             ((st_hooks s ++ ex) ++ [HookReg [] []]) false)
    /\ all_empty ex
    /\ forall k,
         (In k (forin_keys (st_heap s) (VObj lp)) ->
          exists v, alist_get k ps = Some v
                    /\ built_member E (st_heap s) p lp
                         (length (st_hooks s)) k v)
         /\ (~ In k (forin_keys (st_heap s) (VObj lp)) ->
             alist_get k ps = None).
Proof.
  intros Hc Hwf Hp Hlp Hfree.
  rewrite (extend_unfold E n call c p _ s Hc). cbv zeta. cbn [arg nth].
  rewrite forin_keys_app by assumption.
  destruct (extend_loop_merge_free E n (st_heap s) (st_hooks s) p lp
              Hwf Hp Hlp Hfree false
              (forin_keys (st_heap s) (VObj lp)) [] [])
    as (ps & ex & Hrun & Hex & Hk); [constructor|].
  rewrite app_nil_r in Hrun. rewrite Hrun.
  exists ps, ex. split; [reflexivity|]. split; [exact Hex|exact Hk].
Qed.

Lemma hooks_of_all_empty (hs ex : list hookreg) (hp : list obj) (i : bool)
    (r : nat) :
  all_empty ex -> length hs <= r ->
  hooks_of (State hp (hs ++ ex) i) r = HookReg [] [].
Proof.
  intros Hex Hr. unfold hooks_of. cbn [st_hooks].
  rewrite lookup_app_r by exact Hr.
  destruct (ex !! (r - length hs)) as [x|] eqn:Hx; [|reflexivity].
  cbn. unfold all_empty in Hex. rewrite Forall_forall in Hex.
  apply Hex. eapply list_elem_of_lookup_2. exact Hx.
Qed.


(** X14: such an extend returns normally and writes into nothing that
    existed: every object of the heap, the base prototype and the override
    map among them, and every hook record is as before; the one new object
    is the prototype, the new hook records are empty, and [initializing]
    is false afterwards whatever it was. *)
Theorem extend_leaves_existing_objects (E : env) (n : nat)
    (call : value -> value -> list value -> state -> result)
    (c : value) (p lp : nat) (s : state) :
  class_proto c = Some p ->
  wf_heap (st_heap s) ->
  p < length (st_heap s) ->
  lp < length (st_heap s) ->
  merge_free (st_heap s) lp ->
  exists cls s',
    extend E n call c [VObj lp] s = (Normal cls, s')
    /\ length (st_heap s') = S (length (st_heap s))
    /\ (forall l, l < length (st_heap s) ->
                  st_heap s' !! l = st_heap s !! l)
    /\ (forall r, r < length (st_hooks s) ->
                  st_hooks s' !! r = st_hooks s !! r)
    /\ (forall r, length (st_hooks s) <= r ->
                  hooks_of s' r = HookReg [] [])
    /\ st_initializing s' = false.
Proof.
  intros Hc Hwf Hp Hlp Hfree.
  destruct (extend_merge_free E n call c p lp s Hc Hwf Hp Hlp Hfree)
    as (ps & ex & Hrun & Hex & _).
  eexists _, _. split; [exact Hrun|]. cbn [st_heap st_hooks st_initializing].
  split; [rewrite length_app; cbn; lia|].
  split; [intros l Hl; now rewrite lookup_app_l|].
  split; [intros r Hr; rewrite <- app_assoc; now rewrite lookup_app_l|].
  split; [|reflexivity].
  intros r Hr. rewrite <- app_assoc. apply hooks_of_all_empty; [|exact Hr].
  now apply all_empty_snoc.
Qed.

Lemma two_object_heap_wf (o1 o2 : obj) :
  o_proto o1 = None -> o_proto o2 = None -> wf_heap [o1; o2].
Proof.
  intros H1 H2 l o p Hl Hp. destruct l as [|[|l]]; cbn in Hl.
  - inversion Hl; subst o. congruence.
  - inversion Hl; subst o. congruence.
  - discriminate Hl.
Defined.

Lemma members_state_wf : wf_heap (st_heap members_state).
Proof. apply two_object_heap_wf; reflexivity. Defined.

Lemma empty_map_state_wf : wf_heap (st_heap empty_map_state).
Proof. apply two_object_heap_wf; reflexivity. Defined.

Lemma members_state_merge_free : merge_free (st_heap members_state) 1.
Proof.
  intros k. unfold get_prop. cbn.
  destruct (String.eqb k "m"); [reflexivity|].
  destruct (String.eqb k "n"); [reflexivity|].
  destruct (String.eqb k "f"); reflexivity.
Defined.


Lemma extend_leaves_existing_objects_witness :
  exists cls s',
    extend sample_env 1 (apply sample_env 1) (VFun (FRootClass 0)) [VObj 1]
      members_state
    = (Normal cls, s')
    /\ st_initializing s' = false.
Proof.
  destruct (extend_leaves_existing_objects sample_env 1 (apply sample_env 1)
              (VFun (FRootClass 0)) 0 1 members_state eq_refl
              members_state_wf
              ltac:(cbn; lia) ltac:(cbn; lia) members_state_merge_free)
    as (cls & s' & Hrun & _ & _ & _ & _ & Hi).
  exists cls, s'. split; [exact Hrun|exact Hi].
Defined.

(** The members built in the example: the override of [m] gets [_super],
    the number is copied, the new function becomes hookable. *)
Example extend_builds_members_example :
  snd (extend sample_env 1 (apply sample_env 1) (VFun (FRootClass 0))
         [VObj 1] members_state)
  = State (st_heap members_state
           ++ [Obj (Some 0) false
                 [("m", VFun (FSuperWrap (VObj 0) "m" (VFun (FUser 11))));
                  ("n", VNum 1);
                  ("f", VFun (FHookable 0 (VFun (FUser 0))))]])
          [HookReg [] []; HookReg [] []] false.
Proof. vm_compute. reflexivity. Qed.

(** X15: extending without overrides, by [c.extend()] or by
    [c.extend({})], gives a subclass that reads like its base: the new
    prototype is an empty object linked to the base prototype, so every
    name resolves on it to what it resolves to on the base prototype; the
    existing heap is not written. *)
Theorem extend_without_overrides (E : env) (n : nat)
    (call : value -> value -> list value -> state -> result)
    (c : value) (p : nat) (args : list value) (s : state) :
  class_proto c = Some p ->
  wf_heap (st_heap s) ->
  p < length (st_heap s) ->
  args = []
  \/ (exists lp, args = [VObj lp]
                 /\ st_heap s !! lp = Some (Obj None false [])) ->
  let fresh := (st_heap s ++ [Obj (Some p) false []])%list in
  extend E n call c args s
  = (Normal (VFun (FClass (length (st_heap s)) (length (st_hooks s)))),
     State fresh (st_hooks s ++ [HookReg [] []]) false)
  /\ forall k, get_prop fresh (length (st_heap s)) k
               = get_prop (st_heap s) p k.
Proof.
  intros Hc Hwf Hp Hargs fresh. split.
  - rewrite (extend_unfold E n call c p args s Hc). cbv zeta. fold fresh.
    assert (forin_keys fresh (arg 0 args) = []) as Hkeys.
    { destruct Hargs as [->|(lp & -> & Hlp)]; [reflexivity|].
      cbn [arg nth]. unfold forin_keys. cbn [chain_keys]. unfold fresh.
      rewrite lookup_app_l by (apply lookup_lt_Some in Hlp; exact Hlp).
      rewrite Hlp. reflexivity. }
    rewrite Hkeys. reflexivity.
  - intros k. unfold fresh. now rewrite get_prop_last.
Qed.

Lemma extend_without_overrides_witness :
  extend sample_env 1 (apply sample_env 1) (VFun (FRootClass 0)) [VObj 1]
    empty_map_state
  = (Normal (VFun (FClass 2 0)),
     State (st_heap empty_map_state ++ [Obj (Some 0) false []])
           [HookReg [] []] false).
Proof.
  apply (extend_without_overrides sample_env 1 (apply sample_env 1)
           (VFun (FRootClass 0)) 0 [VObj 1] empty_map_state eq_refl
           empty_map_state_wf ltac:(cbn; lia)).
  right. exists 1. split; reflexivity.
Defined.

(** X16: the flag [initializing] is set before [new this()] and cleared
    after it, with nothing to clear it when the construction throws.
    [extend] called on an object that is not a constructor throws a
    TypeError and leaves the flag set; in that state the constructor of
    every class skips [init]: [new c(args...)] only allocates the
    instance. *)
Theorem extend_on_non_constructor_leaves_flag_set (E : env) (n m : nat)
    (l p h : nat) (args cargs : list value) (s : state) :
  let s' := with_initializing s true in
  apply E (S n) (VFun FExtend) (VObj l) args s
  = (Thrown (VErr (TypeError "not a constructor")), s')
  /\ new E m (VFun (FClass p h)) cargs s'
     = (Normal (VObj (length (st_heap s))),
        with_heap s' (st_heap s ++ [Obj (Some p) false []])).
Proof.
  intros s'. split; reflexivity.
Qed.

(** ** Identifiers *)

Lemma remove_first_filter (f g : ascii -> bool) (s : string) :
  (forall c, f c = true -> g c = false) ->
  string_filter g (remove_first f s) = string_filter g s.
Proof.
  intros Hfg. induction s as [|c r IH]; [reflexivity|].
  cbn [remove_first]. destruct (f c) eqn:Hf.
  - cbn [string_filter]. now rewrite (Hfg c Hf).
  - cbn [string_filter]. now rewrite IH.
Qed.

Lemma remove_first_length (f : ascii -> bool) (s : string) :
  String.length (remove_first f s) <= String.length s
  /\ String.length s <= S (String.length (remove_first f s)).
Proof.
  induction s as [|c r IH]; [cbn; lia|].
  cbn [remove_first]. destruct (f c); cbn [String.length]; lia.
Qed.


(** What the cleaning does to a few identifiers. *)
Example uid_clean_examples :
  uid_clean "price" = "rice"
  /\ uid_clean "item[0]" = "itm[0]"
  /\ uid_clean "a:b:c" = "b:c"
  /\ uid_clean "12:34" = "1234".
Proof. repeat split; reflexivity. Qed.

Lemma pretty_N_go_length (x : N) (s : string) :
  String.length s <= String.length (pretty_N_go x s).
Proof.
  revert s. induction (N.lt_wf_0 x) as [x _ IH]; intros s.
  assert (x = 0 \/ 0 < x)%N as [->|Hx] by lia.
  - now rewrite pretty_N_go_0.
  - rewrite pretty_N_go_step by exact Hx.
    etransitivity; [|apply IH; now apply N.div_lt]. cbn. lia.
Qed.

Lemma pretty_Z_nonempty (n : Z) : pretty n <> "".
Proof.
  destruct n as [|q|q]; [discriminate| |discriminate].
  change (pretty (Zpos q)) with (pretty (Npos q)).
  unfold pretty, pretty_N. destruct (decide (Npos q = 0%N)); [discriminate|].
  rewrite pretty_N_go_step by lia. intros H.
  pose proof (pretty_N_go_length (Npos q `div` 10)
                (String (pretty_N_char (Npos q `mod` 10)) "")) as Hl.
  rewrite H in Hl. cbn in Hl. lia.
Qed.

Lemma append_nonempty_r (a b : string) : b <> "" -> String.append a b <> "".
Proof.
  intros Hb. destruct a; [exact Hb|discriminate].
Qed.

(** X18: [_uid] throws exactly for an element with no (non-empty) [id], no
    (non-empty) [name] and no form to read; in every other case it
    returns a string that is not empty: the [id], else the [name], else
    the form's [id] or [name] followed by the decimal position. *)
Theorem uid_source_throws_or_is_not_empty (el : element_info) :
  ((exists e, _uid el = inr e)
   <-> attr_truthy (attr_id el) = false
       /\ attr_truthy (attr_name el) = false
       /\ el_form el = None)
  /\ forall s, _uid el = inl s -> s <> "".
Proof.
  unfold _uid. split; [split|].
  - intros [e He].
    destruct (attr_truthy (attr_id el)); [discriminate He|].
    destruct (attr_truthy (attr_name el)); [discriminate He|].
    destruct (el_form el); [discriminate He|]. now repeat split.
  - intros (-> & -> & ->). eexists. reflexivity.
  - intros s Hs.
    destruct (attr_id el) as [i|] eqn:Hi; cbn [attr_truthy] in Hs.
    + destruct (String.eqb i "") eqn:Hie; cbn [negb] in Hs.
      * destruct (attr_name el) as [m|] eqn:Hm; cbn [attr_truthy] in Hs.
        -- destruct (String.eqb m "") eqn:Hme; cbn [negb] in Hs.
           ++ destruct (el_form el); inversion Hs; subst s.
              apply append_nonempty_r, pretty_Z_nonempty.
           ++ inversion Hs; subst s. cbn. intros ->. discriminate Hme.
        -- destruct (el_form el); inversion Hs; subst s.
           apply append_nonempty_r, pretty_Z_nonempty.
      * inversion Hs; subst s. cbn. intros ->. discriminate Hie.
    + destruct (attr_name el) as [m|] eqn:Hm; cbn [attr_truthy] in Hs.
      * destruct (String.eqb m "") eqn:Hme; cbn [negb] in Hs.
        -- destruct (el_form el); inversion Hs; subst s.
           apply append_nonempty_r, pretty_Z_nonempty.
        -- inversion Hs; subst s. cbn. intros ->. discriminate Hme.
      * destruct (el_form el); inversion Hs; subst s.
        apply append_nonempty_r, pretty_Z_nonempty.
Qed.

(** ** The test for a mention of [_super] *)

Lemma append_cons (c : ascii) (p x : string) :
  String.append (String c p) x = String c (String.append p x).
Proof. reflexivity. Qed.

Lemma append_nil (x : string) : String.append "" x = x.
Proof. reflexivity. Qed.

Lemma prefix_append (p x : string) : String.prefix p (String.append p x) = true.
Proof.
  induction p as [|c p IH]; [destruct x; reflexivity|].
  rewrite append_cons. simpl. destruct (ascii_dec c c); [exact IH|contradiction].
Qed.

Lemma prefix_drop (p s : string) :
  String.prefix p s = true ->
  s = String.append p (string_drop (String.length p) s).
Proof.
  revert s. induction p as [|c p IH]; intros s H; [reflexivity|].
  destruct s as [|d s]; [discriminate H|]. cbn in H.
  destruct (ascii_dec c d) as [->|]; [|discriminate H].
  rewrite append_cons. simpl. f_equal. now apply IH.
Qed.

Lemma string_drop_append (p x : string) :
  string_drop (String.length p) (String.append p x) = x.
Proof.
  induction p as [|c p IH]; [reflexivity|].
  rewrite append_cons. exact IH.
Qed.

(** The scan, for a text that follows a word character or not. *)
Lemma test_super_from_spec (s : string) :
  forall prev,
    test_super_from prev s = true <->
    exists pre post,
      s = String.append pre (String.append "_super" post)
      /\ (match pre with EmptyString => prev | _ => ends_with_word pre end)
         = false
      /\ starts_with_word post = false.
Proof.
  induction s as [|c r IH]; intros prev.
  - split; [discriminate|].
    intros (pre & post & Hs & _). destruct pre; discriminate Hs.
  - cbn [test_super_from]. rewrite orb_true_iff, !andb_true_iff, IH.
    rewrite !negb_true_iff. split.
    + intros [[[Hprev Hpre] Hpost]|(pre & post & Hs & Hb & Hp)].
      * exists "", (string_drop 6 (String c r)).
        split; [exact (prefix_drop "_super" _ Hpre)|]. now split.
      * exists (String c pre), post.
        split; [rewrite append_cons; now rewrite Hs|].
        split; [|exact Hp]. destruct pre; exact Hb.
    + intros (pre & post & Hs & Hb & Hp). destruct pre as [|d pre].
      * left. rewrite append_nil in Hs. rewrite Hs.
        split; [split; [exact Hb|apply (prefix_append "_super")]|].
        now rewrite (string_drop_append "_super").
      * right. rewrite append_cons in Hs. inversion Hs; subst d r.
        exists pre, post. split; [reflexivity|]. split; [|exact Hp].
        destruct pre; exact Hb.
Qed.

(** X19: [fnTest] accepts a source text exactly when [_super] occurs in
    it as a word of its own: somewhere in the text, neither preceded nor
    followed by a letter, a digit or an underscore.  Where the mention
    stands (code, string or comment) plays no part. *)
Theorem fnTest_accepts_whole_word_super (s : string) :
  fnTest s = true <->
  exists pre post,
    s = String.append pre (String.append "_super" post)
    /\ ends_with_word pre = false
    /\ starts_with_word post = false.
Proof.
  change (fnTest s) with (test_super_from false s).
  rewrite test_super_from_spec. split.
  - intros (pre & post & Hs & Hb & Hp). exists pre, post.
    split; [exact Hs|]. split; [|exact Hp]. destruct pre; [reflexivity|exact Hb].
  - intros (pre & post & Hs & Hb & Hp). exists pre, post.
    split; [exact Hs|]. split; [|exact Hp]. destruct pre; [reflexivity|exact Hb].
Qed.

Example fnTest_examples :
  fnTest "function() { return this._super(); }" = true
  /\ fnTest "function() { /* no _super here */ }" = true
  /\ fnTest "function() { return this.my_super(); }" = false
  /\ fnTest "function() { return this._superb; }" = false.
Proof. repeat split; reflexivity. Qed.

(** ** [setOptions] on flat option maps *)

Lemma wf_from_sound (h : list obj) :
  forall i, wf_from i h = true ->
            forall l o p, h !! l = Some o -> o_proto o = Some p -> p < i + l.
Proof.
  induction h as [|a r IH]; intros i Hw l o p Hl Hp; [discriminate Hl|].
  cbn [wf_from] in Hw. apply andb_true_iff in Hw as [Ha Hr].
  destruct l as [|l]; cbn in Hl.
  - inversion Hl; subst a. rewrite Hp in Ha.
    apply Nat.ltb_lt in Ha. lia.
  - pose proof (IH (S i) Hr l o p Hl Hp). lia.
Qed.

Lemma wf_from_heap (h : list obj) : wf_from 0 h = true -> wf_heap h.
Proof. intros Hw l o p Hl Hp. exact (wf_from_sound h 0 Hw l o p Hl Hp). Qed.

Lemma get_prop_plain (h : list obj) (l : nat) (arr : bool)
    (ps : list (string * value)) (k : string) :
  h !! l = Some (Obj None arr ps) ->
  get_prop h l k = default VUndef (alist_get k ps).
Proof.
  intros Hl. unfold get_prop. cbn [chain_get]. rewrite Hl. cbn [o_props o_proto].
  destruct (alist_get k ps); reflexivity.
Qed.

Lemma forin_keys_plain (h : list obj) (l : nat) (arr : bool)
    (ps : list (string * value)) :
  h !! l = Some (Obj None arr ps) ->
  forin_keys h (VObj l) = dedup_keys [] (map fst ps).
Proof.
  intros Hl. unfold forin_keys. cbn [chain_keys]. rewrite Hl.
  cbn [o_props o_proto]. now rewrite app_nil_r.
Qed.

Lemma in_dedup_keys (k : string) (l : list string) :
  forall seen, In k (dedup_keys seen l) <-> In k l /\ ~ In k seen.
Proof.
  induction l as [|a l IH]; intros seen; cbn [dedup_keys].
  - split; [intros []|intros [[] _]].
  - destruct (existsb (String.eqb a) seen) eqn:Hex.
    + apply existsb_exists in Hex as (x & Hx & Hax).
      apply String.eqb_eq in Hax. subst x. rewrite IH. split.
      * intros [H1 H2]. split; [now right|exact H2].
      * intros [[<-|H1] H2]; [contradiction|now split].
    + assert (~ In a seen) as Ha.
      { intros Hin. assert (existsb (String.eqb a) seen = true) as Ht.
        { apply existsb_exists. exists a. split; [exact Hin|].
          apply String.eqb_refl. }
        congruence. }
      cbn [In]. rewrite IH. cbn [In]. split.
      * intros [<-|[H1 H2]]; [split; [now left|exact Ha]|].
        split; [now right|]. intros H. apply H2. now right.
      * intros [[<-|H1] H2]; [now left|].
        destruct (string_dec a k) as [->|Hne]; [now left|].
        right. split; [exact H1|]. intros [H|H]; [contradiction|contradiction].
Qed.

Lemma in_map_fst_alist_get (k : string) (ps : list (string * value)) :
  In k (map fst ps) <-> alist_get k ps <> None.
Proof.
  induction ps as [|[a v] ps IH]; cbn [map fst In alist_get].
  - split; [intros []|congruence].
  - destruct (String.eqb k a) eqn:Hk.
    + apply String.eqb_eq in Hk. subst a. split; [discriminate|now left].
    + rewrite <- IH. split; [intros [->|H]; [|exact H]|now right].
      rewrite String.eqb_refl in Hk. discriminate Hk.
Qed.

Lemma alist_get_in (k : string) (v : value) (ps : list (string * value)) :
  alist_get k ps = Some v -> In (k, v) ps.
Proof.
  induction ps as [|[a w] ps IH]; cbn [alist_get]; [discriminate|].
  destruct (String.eqb k a) eqn:Hk.
  - apply String.eqb_eq in Hk. subst a. intros H. inversion H. now left.
  - intros H. right. now apply IH.
Qed.

Lemma alist_get_flat_merge (src : list (string * value)) (k : string)
    (ks : list string) :
  forall pt,
    alist_get k (flat_merge src ks pt)
    = if in_dec string_dec k ks
      then merge_get (alist_get k src) (alist_get k pt)
      else alist_get k pt.
Proof.
  induction ks as [|a r IH]; intros pt; [reflexivity|].
  cbn [flat_merge].
  assert (forall v, alist_get a src = Some v -> v <> VUndef ->
             alist_get k (flat_merge src r (alist_set a v pt))
             = if in_dec string_dec k (a :: r)
               then merge_get (alist_get k src) (alist_get k pt)
               else alist_get k pt) as Hset.
  { intros v Hv Hdef. rewrite IH.
    destruct (string_dec k a) as [->|Hne].
    - rewrite alist_get_set_eq, Hv.
      destruct (in_dec string_dec a (a :: r)) as [_|Hn];
        [|exfalso; apply Hn; now left].
      destruct (in_dec string_dec a r); destruct v; try reflexivity;
        contradiction.
    - rewrite alist_get_set_ne by exact Hne.
      destruct (in_dec string_dec k r) as [Hr|Hr],
               (in_dec string_dec k (a :: r)) as [Har|Har];
        try reflexivity.
      + exfalso. apply Har. now right.
      + destruct Har as [->|Har]; contradiction. }
  assert (alist_get a src = None \/ alist_get a src = Some VUndef ->
          alist_get k (flat_merge src r pt)
          = if in_dec string_dec k (a :: r)
            then merge_get (alist_get k src) (alist_get k pt)
            else alist_get k pt) as Hskip.
  { intros Hu. rewrite IH.
    destruct (in_dec string_dec k r) as [Hr|Hr],
             (in_dec string_dec k (a :: r)) as [Har|Har];
      try reflexivity.
    - exfalso. apply Har. now right.
    - destruct Har as [->|Har]; [|contradiction].
      destruct Hu as [-> | ->]; reflexivity. }
  destruct (alist_get a src) as [v|] eqn:Hv; [|apply Hskip; now left].
  destruct v; first [ apply Hskip; now right
                    | apply Hset; [reflexivity|discriminate] ].
Qed.

(** The loop of the deep merge over a flat source: only the target is
    written, with the defined members of the source. *)
Lemma jq_merge_keys_flat
    (rec : list obj -> nat -> nat -> option (list obj)) (t s : nat)
    (ps : list (string * value)) (pr : option nat) (ar : bool) :
  s <> t ->
  Forall (fun kv => primitive (snd kv) = true) ps ->
  forall ks pt hc,
    hc !! s = Some (Obj None false ps) ->
    hc !! t = Some (Obj pr ar pt) ->
    jq_merge_keys rec t s ks hc
    = Some (<[ t := Obj pr ar (flat_merge ps ks pt) ]> hc).
Proof.
  intros Hne Hprim. induction ks as [|name ks IH]; intros pt hc Hs Ht.
  - cbn. now rewrite list_insert_id.
  - cbn [jq_merge_keys flat_merge].
    rewrite (get_prop_plain hc s false ps name Hs).
    assert (forall v, v <> VUndef -> primitive v = true ->
               jq_merge_keys rec t s ks (set_prop hc t name v)
               = Some (<[ t := Obj pr ar
                                 (flat_merge ps ks (alist_set name v pt)) ]> hc))
      as Hset.
    { intros v _ _. unfold set_prop. rewrite Ht. cbn [o_proto o_array o_props].
      pose proof (lookup_lt_Some _ _ _ Ht) as Hlt.
      rewrite (IH (alist_set name v pt)).
      - now rewrite list_insert_insert_eq.
      - rewrite list_lookup_insert_ne by congruence. exact Hs.
      - now rewrite list_lookup_insert_eq. }
    destruct (alist_get name ps) as [v|] eqn:Hv; cbn [default];
      [|now apply IH].
    assert (primitive v = true) as Hpv.
    { rewrite Forall_forall in Hprim.
      apply (Hprim (name, v)). apply list_elem_of_In. now apply alist_get_in. }
    destruct v; try discriminate Hpv;
      first [ now apply IH | apply Hset; [discriminate|reflexivity] ].
Qed.

Lemma jq_merge_flat (n : nat) (h : list obj) (t s : nat)
    (ps pt : list (string * value)) (pr : option nat) (ar : bool) :
  s <> t ->
  Forall (fun kv => primitive (snd kv) = true) ps ->
  h !! s = Some (Obj None false ps) ->
  h !! t = Some (Obj pr ar pt) ->
  jq_merge (S n) h t s
  = Some (<[ t := Obj pr ar
                    (flat_merge ps (dedup_keys [] (map fst ps)) pt) ]> h).
Proof.
  intros Hne Hprim Hs Ht. cbn [jq_merge].
  rewrite (forin_keys_plain h s false ps Hs).
  now apply jq_merge_keys_flat.
Qed.

(** A member of the target after a flat source has been merged in. *)
Lemma alist_get_flat_merge_all (ps pt : list (string * value)) (k : string) :
  alist_get k (flat_merge ps (dedup_keys [] (map fst ps)) pt)
  = merge_get (alist_get k ps) (alist_get k pt).
Proof.
  rewrite alist_get_flat_merge.
  destruct (in_dec string_dec k (dedup_keys [] (map fst ps))) as [Hin|Hout];
    [reflexivity|].
  destruct (alist_get k ps) as [v|] eqn:Hv; [|reflexivity].
  exfalso. apply Hout. apply in_dedup_keys. split; [|intros []].
  apply in_map_fst_alist_get. congruence.
Qed.

Lemma chain_get_insert_frame (n : nat) (h : list obj) (o : nat) (x : obj)
    (k : string) :
  forall l, ~ In o (proto_chain n h l) ->
            chain_get n (<[ o := x ]> h) l k = chain_get n h l k.
Proof.
  induction n as [|n IH]; intros l Hl; [reflexivity|].
  cbn [proto_chain] in Hl. cbn [chain_get].
  assert (l <> o) as Hne by (intros ->; apply Hl; now left).
  rewrite list_lookup_insert_ne by congruence.
  destruct (h !! l) as [ob|]; [|reflexivity].
  destruct (alist_get k (o_props ob)); [reflexivity|].
  destruct (o_proto ob) as [p|]; [|reflexivity].
  apply IH. intros Hin. apply Hl. now right.
Qed.

Lemma wf_heap_insert (h : list obj) (o : nat) (x ob : obj) :
  wf_heap h -> h !! o = Some ob -> o_proto x = o_proto ob ->
  wf_heap (<[ o := x ]> h).
Proof.
  intros Hwf Ho Hx l a p Hl Hp.
  destruct (decide (l = o)) as [->|Hne].
  - rewrite list_lookup_insert_eq in Hl
      by (apply lookup_lt_Some in Ho; exact Ho).
    inversion Hl; subst a. rewrite Hx in Hp. eauto.
  - rewrite list_lookup_insert_ne in Hl by congruence. eauto.
Qed.

Lemma read_merge_get (a b : option value) (fb : value) :
  match default VUndef (merge_get a b) with VUndef => fb | v => v end
  = defined_or a (match default VUndef b with VUndef => fb | v => v end).
Proof. destruct a as [[]|]; reflexivity. Qed.

Lemma read_defined_or (b : option value) (fb : value) :
  match default VUndef b with VUndef => fb | v => v end = defined_or b fb.
Proof. destruct b as [[]|]; reflexivity. Qed.

(** [setOptions(q)] for an instance whose [options] and [defaults] are
    object literals and a flat argument [q]: the state it leaves. *)
Lemma lib_setOptions_flat (E : env) (n i o d q : nat)
    (pt psd psq : list (string * value)) (s : state) :
  wf_heap (st_heap s) ->
  i < length (st_heap s) ->
  get_prop (st_heap s) i "options" = VObj o ->
  get_prop (st_heap s) i "defaults" = VObj d ->
  st_heap s !! o = Some (Obj None false pt) ->
  flat_object (st_heap s) d psd ->
  flat_object (st_heap s) q psq ->
  o <> d -> o <> q ->
  apply E (S (S n)) (VFun (FLib LSetOptions)) (VObj i) [VObj q] s
  = (Normal (VObj i),
     with_heap s
       (<[ o := Obj None false
                  (flat_merge psq (dedup_keys [] (map fst psq))
                     (flat_merge psd (dedup_keys [] (map fst psd)) pt)) ]>
          (st_heap s ++ [Obj None false []])%list)).
Proof.
  intros Hwf Hi Ho Hd Hot [Hdl Hdp] [Hql Hqp] Hod Hoq.
  pose proof (lookup_lt_Some _ _ _ Hot) as Holt.
  pose proof (lookup_lt_Some _ _ _ Hdl) as Hdlt.
  pose proof (lookup_lt_Some _ _ _ Hql) as Hqlt.
  rewrite apply_lib. cbn [lib_body exec member alloc arg nth].
  rewrite Ho. cbn [with_heap st_heap st_hooks st_initializing].
  rewrite get_prop_app by assumption. rewrite Hd. cbn [exec].
  unfold jQuery_extend. cbn [st_heap jq_merge_all].
  set (h0 := (st_heap s ++ [Obj None false []])%list).
  assert (h0 !! o = Some (Obj None false pt)) as H0o
    by (unfold h0; now rewrite lookup_app_l).
  assert (h0 !! d = Some (Obj None false psd)) as H0d
    by (unfold h0; now rewrite lookup_app_l).
  assert (h0 !! q = Some (Obj None false psq)) as H0q
    by (unfold h0; now rewrite lookup_app_l).
  assert (h0 !! length (st_heap s) = Some (Obj None false [])) as H0e
    by (unfold h0; now apply list_lookup_middle).
  assert (length h0 = S (length (st_heap s))) as Hl0
    by (unfold h0; rewrite length_app; cbn; lia).
  rewrite (jq_merge_flat n h0 o (length (st_heap s)) [] pt None false)
    by (try assumption; try constructor; lia).
  cbn [map dedup_keys flat_merge]. rewrite list_insert_id by exact H0o.
  rewrite (jq_merge_flat n h0 o d psd pt None false)
    by (try assumption; congruence).
  set (pt1 := flat_merge psd (dedup_keys [] (map fst psd)) pt).
  rewrite (jq_merge_flat n _ o q psq pt1 None false);
    [ | congruence | assumption
      | rewrite list_lookup_insert_ne by congruence; exact H0q
      | rewrite list_lookup_insert_eq by lia; reflexivity ].
  rewrite list_insert_insert_eq. reflexivity.
Qed.

Lemma lib_setOptions_get_flat (E : env) (n i o d q : nat)
    (pt psd psq : list (string * value)) (s : state) :
  wf_heap (st_heap s) ->
  i < length (st_heap s) ->
  get_prop (st_heap s) i "options" = VObj o ->
  get_prop (st_heap s) i "defaults" = VObj d ->
  off_chain (st_heap s) i o ->
  st_heap s !! o = Some (Obj None false pt) ->
  flat_object (st_heap s) d psd ->
  flat_object (st_heap s) q psq ->
  o <> d -> o <> q ->
  exists s',
    apply E (S (S n)) (VFun (FLib LSetOptions)) (VObj i) [VObj q] s
    = (Normal (VObj i), s')
    /\ (forall m name fallback,
          apply E (S m) (VFun (FLib LGet)) (VObj i) [VStr name; fallback] s'
          = (Normal (defined_or (alist_get name psq)
                       (defined_or (alist_get name psd)
                          (defined_or (alist_get name pt) fallback))), s'))
    /\ (forall l, l < length (st_heap s) -> l <> o ->
                  st_heap s' !! l = st_heap s !! l).
Proof.
  intros Hwf Hi Ho Hd Hoff Hot Hfd Hfq Hod Hoq.
  pose proof (lookup_lt_Some _ _ _ Hot) as Holt.
  eexists. split;
    [exact (lib_setOptions_flat E n i o d q pt psd psq s Hwf Hi Ho Hd Hot
              Hfd Hfq Hod Hoq)|].
  cbn [with_heap st_heap].
  set (x := Obj None false
              (flat_merge psq (dedup_keys [] (map fst psq))
                 (flat_merge psd (dedup_keys [] (map fst psd)) pt))).
  split.
  - intros m name fallback.
    rewrite (lib_get_value E m i o name fallback).
    + cbn [with_heap st_heap]. f_equal.
      rewrite (get_prop_plain _ o false (o_props x) name).
      * unfold x. cbn [o_props]. rewrite !alist_get_flat_merge_all.
        rewrite !read_merge_get. now rewrite read_defined_or.
      * cbn [with_heap st_heap].
        rewrite list_lookup_insert_eq by (rewrite length_app; lia).
        reflexivity.
    + cbn [with_heap st_heap]. rewrite insert_app_l by exact Holt.
      rewrite get_prop_app.
      * unfold get_prop. rewrite length_insert.
        rewrite chain_get_insert_frame by exact Hoff. exact Ho.
      * now apply (wf_heap_insert _ _ _ _ Hwf Hot).
      * now rewrite length_insert.
  - intros l Hl Hne. rewrite list_lookup_insert_ne by congruence.
    now rewrite lookup_app_l.
Qed.


Lemma options_state_wf : wf_heap (st_heap options_state).
Proof. apply wf_from_heap. vm_compute. reflexivity. Defined.

Lemma options_state_off_chain : off_chain (st_heap options_state) 5 2.
Proof.
  unfold off_chain. vm_compute. intros [H|[H|[H|[]]]]; discriminate H.
Defined.

Lemma options_state_flat_defaults : flat_object (st_heap options_state) 1 [].
Proof. split; [vm_compute; reflexivity|constructor]. Defined.

Lemma options_state_flat_argument :
  flat_object (st_heap options_state) 7
    [("color", VStr "red"); ("size", VUndef)].
Proof.
  split; [vm_compute; reflexivity|repeat constructor].
Defined.

Lemma options_state_options :
  get_prop (st_heap options_state) 5 "options" = VObj 2
  /\ get_prop (st_heap options_state) 5 "defaults" = VObj 1
  /\ st_heap options_state !! 2 = Some (Obj None false [])
  /\ 5 < length (st_heap options_state).
Proof. vm_compute. repeat split; [reflexivity..|lia]. Defined.


Lemma set_prop_lookup_ne (h : list obj) (o l : nat) (k : string) (v : value) :
  l <> o -> set_prop h o k v !! l = h !! l.
Proof.
  intros Hne. unfold set_prop. destruct (h !! o); [|reflexivity].
  apply list_lookup_insert_ne. congruence.
Qed.

Lemma set_prop_lookup_eq (h : list obj) (o : nat) (k : string) (v : value)
    (ob : obj) :
  h !! o = Some ob ->
  set_prop h o k v !! o
  = Some (Obj (o_proto ob) (o_array ob) (alist_set k v (o_props ob))).
Proof.
  intros Ho. unfold set_prop. rewrite Ho.
  apply list_lookup_insert_eq. now apply lookup_lt_Some in Ho.
Qed.

Lemma proto_chain_set_prop (n : nat) (h : list obj) (o : nat) (k : string)
    (v : value) :
  forall l, proto_chain n (set_prop h o k v) l = proto_chain n h l.
Proof.
  induction n as [|n IH]; intros l; [reflexivity|]. cbn [proto_chain].
  f_equal. destruct (decide (l = o)) as [->|Hne].
  - destruct (h !! o) as [ob|] eqn:Ho.
    + rewrite (set_prop_lookup_eq h o k v ob Ho). cbn [o_proto].
      destruct (o_proto ob); [apply IH|reflexivity].
    + unfold set_prop. rewrite Ho. rewrite Ho. reflexivity.
  - rewrite set_prop_lookup_ne by exact Hne.
    destruct (h !! l) as [ol|]; [|reflexivity].
    destruct (o_proto ol); [apply IH|reflexivity].
Qed.

(** X21: [setOptions] merges [defaults] into the shared [options] object
    at every call, after what is already there: an option stored by
    [set(name, v)] is overwritten at the next [setOptions(q)] by the
    member [name] of [defaults] when [defaults] defines it and [q] does
    not; [get(name, fallback)] then returns the default, not [v]. *)
Theorem setOptions_reapplies_defaults (E : env) (n i o d q : nat)
    (pt psd psq : list (string * value)) (s : state)
    (name : string) (v vd fallback : value) :
  wf_heap (st_heap s) ->
  i < length (st_heap s) ->
  get_prop (st_heap s) i "options" = VObj o ->
  get_prop (st_heap s) i "defaults" = VObj d ->
  off_chain (st_heap s) i o ->
  st_heap s !! o = Some (Obj None false pt) ->
  flat_object (st_heap s) d psd ->
  flat_object (st_heap s) q psq ->
  o <> d -> o <> q ->
  alist_get name psd = Some vd ->
  vd <> VUndef ->
  alist_get name psq = None ->
  let s1 := with_heap s (set_prop (st_heap s) o name v) in
  apply E (S n) (VFun (FLib LSet)) (VObj i) [VStr name; v] s
  = (Normal (VObj i), s1)
  /\ exists s2,
       apply E (S (S n)) (VFun (FLib LSetOptions)) (VObj i) [VObj q] s1
       = (Normal (VObj i), s2)
       /\ apply E (S n) (VFun (FLib LGet)) (VObj i) [VStr name; fallback] s2
          = (Normal vd, s2).
Proof.
  intros Hwf Hi Ho Hd Hoff Hot [Hdl Hdp] [Hql Hqp] Hod Hoq Hvd Hdef Hq s1.
  pose proof (lookup_lt_Some _ _ _ Hot) as Holt.
  split; [now apply lib_set_stores|].
  destruct (options_after_set (st_heap s) i o name v Ho Holt Hoff)
    as [Ho1 _].
  destruct (lib_setOptions_get_flat E n i o d q (alist_set name v pt)
              psd psq s1) as (s2 & Hrun & Hget & _).
  - now apply wf_heap_set_prop.
  - cbn [s1 with_heap st_heap]. now rewrite set_prop_length.
  - exact Ho1.
  - cbn [s1 with_heap st_heap]. now rewrite get_prop_set_frame.
  - unfold off_chain. cbn [s1 with_heap st_heap].
    rewrite set_prop_length, proto_chain_set_prop. exact Hoff.
  - cbn [s1 with_heap st_heap].
    now rewrite (set_prop_lookup_eq _ o name v _ Hot).
  - split; [|exact Hdp]. cbn [s1 with_heap st_heap].
    rewrite set_prop_lookup_ne by congruence. exact Hdl.
  - split; [|exact Hqp]. cbn [s1 with_heap st_heap].
    rewrite set_prop_lookup_ne by congruence. exact Hql.
  - exact Hod.
  - exact Hoq.
  - exists s2. split; [exact Hrun|]. rewrite (Hget n name fallback).
    rewrite Hq, Hvd. cbn [defined_or].
    destruct vd; try reflexivity. contradiction.
Qed.

Lemma defaults_state_wf : wf_heap (st_heap defaults_state).
Proof. apply wf_from_heap. vm_compute. reflexivity. Defined.

Lemma defaults_state_off_chain : off_chain (st_heap defaults_state) 3 2.
Proof.
  unfold off_chain. vm_compute. intros [H|[H|[]]]; discriminate H.
Defined.

Lemma defaults_state_flat_defaults :
  flat_object (st_heap defaults_state) 1 [("color", VStr "blue")].
Proof. split; [reflexivity|repeat constructor]. Defined.

Lemma defaults_state_flat_argument :
  flat_object (st_heap defaults_state) 4 [("size", VNum 1)].
Proof. split; [reflexivity|repeat constructor]. Defined.

Lemma setOptions_reapplies_defaults_witness :
  exists s2,
    apply sample_env 2 (VFun (FLib LSetOptions)) (VObj 3) [VObj 4]
      (with_heap defaults_state
         (set_prop (st_heap defaults_state) 2 "color" (VStr "red")))
    = (Normal (VObj 3), s2)
    /\ apply sample_env 1 (VFun (FLib LGet)) (VObj 3)
         [VStr "color"; VStr "none"] s2
       = (Normal (VStr "blue"), s2).
Proof.
  apply (setOptions_reapplies_defaults sample_env 0 3 2 1 4 []
           [("color", VStr "blue")] [("size", VNum 1)] defaults_state
           "color" (VStr "red") (VStr "blue") (VStr "none")
           defaults_state_wf ltac:(cbn; lia) eq_refl eq_refl
           defaults_state_off_chain eq_refl
           defaults_state_flat_defaults defaults_state_flat_argument
           ltac:(discriminate) ltac:(discriminate) eq_refl
           ltac:(discriminate) eq_refl).
Defined.

(** ** Sibling subclasses *)

Lemma override_heap_facts (h : list obj) (p : nat) (m : string) (fn : value) :
  wf_heap h -> p < length h ->
  let h1 := (h ++ [override_map m fn; override_proto m p fn])%list in
  wf_heap h1
  /\ length h1 = length h + 2
  /\ h1 !! S (length h) = Some (override_proto m p fn)
  /\ get_prop h1 (S (length h)) m = VFun (FSuperWrap (VObj p) m fn)
  /\ forall k, get_prop h1 p k = get_prop h p k.
Proof.
  intros Hwf Hp h1.
  assert (h1 !! S (length h) = Some (override_proto m p fn)) as Hlk.
  { unfold h1.
    change (h ++ [override_map m fn; override_proto m p fn])%list
      with (h ++ [override_map m fn] ++ [override_proto m p fn])%list.
    rewrite app_assoc. apply list_lookup_middle.
    rewrite length_app. cbn. lia. }
  split; [|split; [|split; [exact Hlk|split]]].
  - unfold h1.
    change (h ++ [override_map m fn; override_proto m p fn])%list
      with (h ++ [override_map m fn] ++ [override_proto m p fn])%list.
    rewrite app_assoc. apply wf_heap_app; [apply wf_heap_app|].
    + exact Hwf.
    + intros q Hq. discriminate Hq.
    + intros q Hq. cbn in Hq. inversion Hq; subst q. rewrite length_app. lia.
  - unfold h1. rewrite length_app. cbn. lia.
  - apply get_prop_own. unfold own_prop. rewrite Hlk. cbn.
    now rewrite String.eqb_refl.
  - intros k. unfold h1. now apply get_prop_app.
Qed.

(** X22: two subclasses made from one base, each overriding [m] with a
    function that mentions [_super], do not interfere: making the second
    leaves the prototype of the first as it was, each prototype holds the
    closure over its own override and the base prototype, and the base's
    [m], which both reach through [_super], is the one it was. *)
Theorem sibling_subclasses_do_not_interfere (E : env) (n : nat)
    (c : value) (p : nat) (m : string) (f1 f2 : value) (s : state) :
  wf_heap (st_heap s) ->
  p < length (st_heap s) ->
  plain_class s c p ->
  delegating E f1 ->
  delegating E f2 ->
  callable (get_prop (st_heap s) p m) = true ->
  let pa := S (length (st_heap s)) in
  let pb := S (length (st_heap s) + 2) in
  exists ra rb s1 s2,
    run E (S (S n)) (extend_with c [(m, f1)] (fun c' => Ret c')) s
    = (Normal (VFun (FClass pa ra)), s1)
    /\ run E (S (S n)) (extend_with c [(m, f2)] (fun c' => Ret c')) s1
       = (Normal (VFun (FClass pb rb)), s2)
    /\ st_heap s2 !! pa = st_heap s1 !! pa
    /\ get_prop (st_heap s2) pa m = VFun (FSuperWrap (VObj p) m f1)
    /\ get_prop (st_heap s2) pb m = VFun (FSuperWrap (VObj p) m f2)
    /\ get_prop (st_heap s2) p m = get_prop (st_heap s) p m.
Proof.
  intros Hwf Hp Hc Hf1 Hf2 Hb pa pb.
  destruct (override_heap_facts (st_heap s) p m f1 Hwf Hp)
    as (Hwf1 & Hlen1 & Hlk1 & Hget1 & Hbase1).
  set (h1 := (st_heap s ++ [override_map m f1; override_proto m p f1])%list)
    in *.
  set (s1 := State h1 (st_hooks s ++ [HookReg [] []]) false).
  assert (plain_class s1 c p) as Hc1.
  { destruct Hc as [->|(h & -> & Hh)]; [now left|].
    right. exists h. split; [reflexivity|].
    apply (hooks_of_grown s false h1 h Hh). }
  assert (p < length h1) as Hp1 by lia.
  destruct (override_heap_facts h1 p m f2 Hwf1 Hp1)
    as (Hwf2 & Hlen2 & Hlk2 & Hget2 & Hbase2).
  exists (length (st_hooks s)), (length (st_hooks s1)), s1.
  eexists. split; [|split].
  - exact (extend_with_override E n c p m f1 s Hwf Hp Hc Hf1 Hb).
  - rewrite (extend_with_override E n c p m f2 s1 Hwf1 Hp1 Hc1 Hf2)
      by (cbn [s1 st_heap]; now rewrite Hbase1).
    cbn [s1 st_heap]. rewrite Hlen1. reflexivity.
  - cbn [st_heap s1]. unfold pa, pb.
    split; [apply lookup_app_l; lia|].
    split; [|split].
    + rewrite get_prop_app by (try assumption; lia). exact Hget1.
    + rewrite <- Hlen1. exact Hget2.
    + now rewrite Hbase2, Hbase1.
Qed.

Lemma sibling_subclasses_do_not_interfere_witness :
  exists ra rb s1 s2,
    run sample_env 2
      (extend_with (VFun (FRootClass 0)) [("m", VFun (FUser 11))]
         (fun c' => Ret c')) chain_state
    = (Normal (VFun (FClass 2 ra)), s1)
    /\ run sample_env 2
         (extend_with (VFun (FRootClass 0)) [("m", VFun (FUser 12))]
            (fun c' => Ret c')) s1
       = (Normal (VFun (FClass 4 rb)), s2).
Proof.
  destruct (sibling_subclasses_do_not_interfere sample_env 0
              (VFun (FRootClass 0)) 0 "m" (VFun (FUser 11)) (VFun (FUser 12))
              chain_state chain_state_wf ltac:(cbn; lia)
              (or_introl eq_refl)
              (conj eq_refl eq_refl) (conj eq_refl eq_refl) eq_refl)
    as (ra & rb & s1 & s2 & H1 & H2 & _).
  exists ra, rb, s1, s2. split; [exact H1|exact H2].
Defined.
